(** * CSRF Plus: a shallow embedding of the token codecs, the in-memory
    secret store and the request verification procedure, with the
    properties of the specification stated and settled over it.

    Conventions.
    - A Buffer is a [list byte].
    - A JavaScript string is a [string]; text that is not ASCII is held as
      its UTF-8 encoding, so [Buffer.from(s, 'utf8')] is the list of the
      characters of [s] seen as bytes.
    - Timestamps ([Date.now()]) and integral numbers are in [Z].
    - A computation that may throw returns a [result].
    - What Node.js provides (HMAC-SHA256, base64, UTF-8, JSON, timers) is
      defined under the headings that start with Platform; the host of a
      URL and the coercions on numbers that are not integers are the
      fields of a [platform]. *)

From Stdlib Require Import ZArith NArith List Strings.String Strings.Ascii Strings.Byte Lia.
From stdpp Require Import base option gmap strings list.
Import ListNotations.

Set Warnings "-register-all,-abstract-large-number".

(* ================================================================== *)
(** ** Values and exceptions *)

Inductive exn :=
| TypeError
| RangeError
| SyntaxError
| MalformedToken
| Error (msg : string).

Inductive result (A : Type) :=
| Ok (a : A)
| Throw (e : exn).
Arguments Ok {A} a.
Arguments Throw {A} e.

#[global] Instance result_ret : MRet result := fun A a => Ok a.
#[global] Instance result_bind : MBind result := fun A B f m =>
  match m with
  | Ok a => f a
  | Throw e => Throw e
  end.

(** [try { m } catch (e) { h }] *)
Definition try_catch {A} (m : result A) (h : exn -> A) : A :=
  match m with
  | Ok a => a
  | Throw e => h e
  end.

(** The values that reach the engine from a request or from the options
    with no check on their type: a string, a Buffer, or anything else
    (undefined, null, a number, an array, ...), of which only the
    truthiness is observed. *)
Inductive jsval :=
| VStr (s : string)
| VBuf (b : list byte)
| VOther (truthy : bool).

Definition undefined : jsval := VOther false.

Definition is_empty (s : string) : bool :=
  match s with
  | EmptyString => true
  | String _ _ => false
  end.

Definition truthy (v : jsval) : bool :=
  match v with
  | VStr s => negb (is_empty s)
  | VBuf _ => true
  | VOther t => t
  end.

(** [a || b] *)
Definition js_or (a b : jsval) : jsval := if truthy a then a else b.

(** The documented argument type [{Buffer|string}]. *)
Inductive bufstr :=
| Buf (b : list byte)
| Str (s : string).

(* ================================================================== *)
(** ** Bytes *)

#[global] Instance byte_eq_dec : EqDecision byte := Byte.byte_eq_dec.

Definition byte_of_N (n : N) : byte :=
  match Byte.of_N (n mod 256) with
  | Some b => b
  | None => Byte.x00
  end.

Definition byte_of_Z (z : Z) : byte := byte_of_N (Z.to_N z).
Definition Z_of_byte (b : byte) : Z := Z.of_N (Byte.to_N b).

Definition byte_xor (a b : byte) : byte :=
  byte_of_N (N.lxor (Byte.to_N a) (Byte.to_N b)).

(** [Buffer.from(s, 'utf8')] *)
Definition utf8 (s : string) : list byte := list_byte_of_string s.

(** [Buffer.isBuffer(a) ? a : Buffer.from(a)] on the documented type. *)
Definition to_buffer (a : bufstr) : list byte :=
  match a with
  | Buf b => b
  | Str s => utf8 s
  end.

(* ================================================================== *)
(** ** Platform: SHA-256 and HMAC (FIPS 180-4, RFC 2104), as
    [crypto.createHmac('sha256', key).update(msg).digest()] computes them *)

Module SHA256.
#[local] Open Scope Z_scope.

Definition w32 (x : Z) : Z := x mod 2 ^ 32.
Definition add32 (x y : Z) : Z := w32 (x + y).
Definition rotr (n x : Z) : Z := Z.lor (Z.shiftr x n) (w32 (Z.shiftl x (32 - n))).
Definition shr (n x : Z) : Z := Z.shiftr x n.
Definition not32 (x : Z) : Z := Z.lxor x 0xFFFFFFFF.

Definition Ch (x y z : Z) : Z := Z.lxor (Z.land x y) (Z.land (not32 x) z).
Definition Maj (x y z : Z) : Z :=
  Z.lxor (Z.lxor (Z.land x y) (Z.land x z)) (Z.land y z).
Definition Sigma0 (x : Z) : Z := Z.lxor (Z.lxor (rotr 2 x) (rotr 13 x)) (rotr 22 x).
Definition Sigma1 (x : Z) : Z := Z.lxor (Z.lxor (rotr 6 x) (rotr 11 x)) (rotr 25 x).
Definition sigma0 (x : Z) : Z := Z.lxor (Z.lxor (rotr 7 x) (rotr 18 x)) (shr 3 x).
Definition sigma1 (x : Z) : Z := Z.lxor (Z.lxor (rotr 17 x) (rotr 19 x)) (shr 10 x).

(** The constants are the first 32 bits of the fractional parts of the
    cube roots (for the rounds) and of the square roots (for the initial
    state) of the first primes. *)
Definition is_prime (n : nat) : bool :=
  List.forallb (fun d => negb (Nat.eqb (n mod d) 0)) (List.seq 2 (n - 2)).

Definition primes : list Z :=
  List.map Z.of_nat (List.filter is_prime (List.seq 2 310)).

(** The integer cube root of [n], bit by bit from bit [b] down. *)
Fixpoint cube_root (b : nat) (n r : Z) : Z :=
  match b with
  | O => r
  | S b' =>
      let c := r + 2 ^ Z.of_nat b' in
      cube_root b' n (if c * c * c <=? n then c else r)
  end.

Definition K256 : list Z :=
  Eval vm_compute in
    List.map (fun p => w32 (cube_root 40 (p * 2 ^ 96) 0)) (List.firstn 64 primes).

Definition H0 : list Z :=
  Eval vm_compute in
    List.map (fun p => w32 (Z.sqrt (p * 2 ^ 64))) (List.firstn 8 primes).

(** The [n] bytes of [x], most significant first. *)
Definition be_bytes (n : nat) (x : Z) : list Z :=
  List.map (fun i => Z.shiftr x (8 * Z.of_nat i) mod 256) (List.rev (List.seq 0 n)).

(** Padding: one byte 0x80, zeros up to 56 modulo 64, the bit length on 8 bytes. *)
Definition pad (msg : list Z) : list Z :=
  let len := Z.of_nat (List.length msg) in
  msg ++ [0x80] ++ List.repeat 0 (Z.to_nat ((55 - len) mod 64)) ++ be_bytes 8 (8 * len).

Fixpoint words (n : nat) (l : list Z) : list Z :=
  match n, l with
  | S n', a :: b :: c :: d :: r =>
      (Z.shiftl a 24 + Z.shiftl b 16 + Z.shiftl c 8 + d) :: words n' r
  | _, _ => []
  end.

(** The message schedule past the first 16 words; [win] is the window of
    the last 16 words. *)
Fixpoint schedule (n : nat) (win : list Z) (acc : list Z) : list Z :=
  match n with
  | O => List.rev acc
  | S n' =>
      let g i := List.nth i win 0 in
      let w := add32 (add32 (sigma1 (g 14%nat)) (g 9%nat))
                     (add32 (sigma0 (g 1%nat)) (g 0%nat)) in
      schedule n' (List.tl win ++ [w]) (w :: acc)
  end.

Definition round (st : list Z) (kw : Z * Z) : list Z :=
  match st with
  | [a; b; c; d; e; f; g; h] =>
      let t1 := add32 (add32 (add32 h (Sigma1 e)) (add32 (Ch e f g) (fst kw))) (snd kw) in
      let t2 := add32 (Sigma0 a) (Maj a b c) in
      [add32 t1 t2; a; b; c; add32 d t1; e; f; g]
  | _ => st
  end.

Definition compress (h : list Z) (block : list Z) : list Z :=
  let w16 := words 16 block in
  let w := w16 ++ schedule 48 w16 [] in
  let st := List.fold_left round (List.combine K256 w) h in
  List.map (fun p => add32 (fst p) (snd p)) (List.combine h st).

Fixpoint blocks (fuel : nat) (h : list Z) (l : list Z) : list Z :=
  match fuel with
  | O => h
  | S f =>
      match l with
      | [] => h
      | _ => blocks f (compress h (List.firstn 64 l)) (List.skipn 64 l)
      end
  end.

Definition digest (msg : list Z) : list Z :=
  let p := pad msg in
  List.concat (List.map (be_bytes 4) (blocks (List.length p) H0 p)).

Definition sha256 (msg : list byte) : list byte :=
  List.map byte_of_Z (digest (List.map Z_of_byte msg)).

Definition hmac (key msg : list byte) : list byte :=
  let k0 := if (64 <? List.length key)%nat then sha256 key else key in
  let k := k0 ++ List.repeat Byte.x00 (64 - List.length k0) in
  let ipad := List.map (byte_xor Byte.x36) k in
  let opad := List.map (byte_xor Byte.x5c) k in
  sha256 (opad ++ sha256 (ipad ++ msg)).

End SHA256.

(** [crypto.createHmac('sha256', key).update(msg).digest()]: a key that is
    neither a string nor a Buffer makes [createHmac] throw a TypeError. *)
Definition createHmac_digest (key : jsval) (msg : string) : result (list byte) :=
  match key with
  | VStr k => Ok (SHA256.hmac (utf8 k) (utf8 msg))
  | VBuf k => Ok (SHA256.hmac k (utf8 msg))
  | VOther _ => Throw TypeError
  end.

(* ================================================================== *)
(** ** Platform: [buf.toString('utf8')]

    The decoder of the Encoding Standard: a well-formed sequence is kept,
    every maximal ill-formed part becomes U+FFFD (bytes EF BF BD). [need]
    continuation bytes in [lo..hi] are awaited; [pend] holds the bytes of
    the sequence read so far. *)

Definition replacement : string :=
  String (ascii_of_byte Byte.xef) (String (ascii_of_byte Byte.xbf)
    (String (ascii_of_byte Byte.xbd) EmptyString)).

Definition str1 (b : byte) : string := String (ascii_of_byte b) EmptyString.

Fixpoint utf8_scan (l : list byte) (need : nat) (lo hi : N) (pend : string) : string :=
  match l with
  | [] => match need with O => EmptyString | S _ => replacement end
  | b :: r =>
      let n := Byte.to_N b in
      let lead :=
        if (n <=? 0x7F)%N then str1 b +:+ utf8_scan r 0 0x80 0xBF EmptyString
        else if ((0xC2 <=? n) && (n <=? 0xDF))%N then utf8_scan r 1 0x80 0xBF (str1 b)
        else if ((0xE0 <=? n) && (n <=? 0xEF))%N then
          utf8_scan r 2 (if (n =? 0xE0)%N then 0xA0 else 0x80)
                        (if (n =? 0xED)%N then 0x9F else 0xBF) (str1 b)
        else if ((0xF0 <=? n) && (n <=? 0xF4))%N then
          utf8_scan r 3 (if (n =? 0xF0)%N then 0x90 else 0x80)
                        (if (n =? 0xF4)%N then 0x8F else 0xBF) (str1 b)
        else replacement +:+ utf8_scan r 0 0x80 0xBF EmptyString in
      match need with
      | O => lead
      | S need' =>
          if ((lo <=? n) && (n <=? hi))%N then
            match need' with
            | O => pend +:+ str1 b +:+ utf8_scan r 0 0x80 0xBF EmptyString
            | S _ => utf8_scan r need' 0x80 0xBF (pend +:+ str1 b)
            end
          else replacement +:+ lead
      end
  end.

Definition toString_utf8 (buf : list byte) : string :=
  utf8_scan buf 0 0x80 0xBF EmptyString.

(* ================================================================== *)
(** ** Platform: [buf.toString('base64')] and [Buffer.from(str, 'base64')] *)

Definition alphabet : string :=
  "ABCDEFGHIJKLMNOPQRSTUVWXYZabcdefghijklmnopqrstuvwxyz0123456789+/".

Definition b64char (n : N) : ascii :=
  match String.get (N.to_nat n) alphabet with
  | Some c => c
  | None => "="%char
  end.

(** The decoder's table: both the standard and the URL-safe characters
    are legal; every other character has no value. *)
Definition unbase64 (c : ascii) : option N :=
  let n := N_of_ascii c in
  if ((65 <=? n) && (n <=? 90))%N then Some (n - 65)%N
  else if ((97 <=? n) && (n <=? 122))%N then Some (n - 71)%N
  else if ((48 <=? n) && (n <=? 57))%N then Some (n + 4)%N
  else if ((n =? 43) || (n =? 45))%N then Some 62%N
  else if ((n =? 47) || (n =? 95))%N then Some 63%N
  else None.

Definition chars (l : list N) : string :=
  string_of_list_ascii (List.map b64char l).

Fixpoint base64_encode (buf : list byte) : string :=
  match buf with
  | [] => EmptyString
  | [a] =>
      let a := Byte.to_N a in
      chars [a / 4; (a mod 4) * 16]%N +:+ "=="
  | [a; b] =>
      let a := Byte.to_N a in
      let b := Byte.to_N b in
      chars [a / 4; (a mod 4) * 16 + b / 16; (b mod 16) * 4]%N +:+ "="
  | a :: b :: c :: rest =>
      let a := Byte.to_N a in
      let b := Byte.to_N b in
      let c := Byte.to_N c in
      chars [a / 4; (a mod 4) * 16 + b / 16; (b mod 16) * 4 + c / 64; c mod 64]%N
        +:+ base64_encode rest
  end.

(** The values of the legal characters of [s], up to the first ['=']:
    the decoder skips what is not legal and stops at the padding. *)
Fixpoint sextets (s : string) : list N :=
  match s with
  | EmptyString => []
  | String c s' =>
      if Ascii.eqb c "="%char then []
      else match unbase64 c with
           | Some v => v :: sextets s'
           | None => sextets s'
           end
  end.

Fixpoint unsextets (l : list N) : list byte :=
  match l with
  | s1 :: s2 :: s3 :: s4 :: rest =>
      byte_of_N (s1 * 4 + s2 / 16) :: byte_of_N ((s2 mod 16) * 16 + s3 / 4)
        :: byte_of_N ((s3 mod 4) * 64 + s4) :: unsextets rest
  | [s1; s2; s3] =>
      [byte_of_N (s1 * 4 + s2 / 16); byte_of_N ((s2 mod 16) * 16 + s3 / 4)]
  | [s1; s2] => [byte_of_N (s1 * 4 + s2 / 16)]
  | _ => []
  end.

Definition base64_decode (s : string) : list byte := unsextets (sextets s).

(* ================================================================== *)
(** ** src/utils/b64url.js *)

(** [s.replace(/x/g, y)] for single characters *)
Fixpoint replace_all (x y : ascii) (s : string) : string :=
  match s with
  | EmptyString => EmptyString
  | String c s' => String (if Ascii.eqb c x then y else c) (replace_all x y s')
  end.

(** [s.replace(/=+$/, '')] *)
Fixpoint strip_padding (s : string) : string :=
  match s with
  | EmptyString => EmptyString
  | String c s' =>
      let r := strip_padding s' in
      if Ascii.eqb c "="%char && is_empty r then EmptyString else String c r
  end.

(** [while (str.length % 4) str += '='] *)
Definition pad_to_4 (s : string) : string :=
  s +:+ string_of_list_ascii
          (List.repeat "="%char ((4 - String.length s mod 4) mod 4)).

Definition encode (buf : list byte) : string :=
  strip_padding (replace_all "/" "_" (replace_all "+" "-" (base64_encode buf))).

Definition decode_string (str : string) : list byte :=
  base64_decode (pad_to_4 (replace_all "_" "/" (replace_all "-" "+" str))).

(** [decode(str)]: [str.replace] is a TypeError on what is not a string. *)
Definition decode (str : jsval) : result (list byte) :=
  match str with
  | VStr s => Ok (decode_string s)
  | VBuf _ | VOther _ => Throw TypeError
  end.

(* ================================================================== *)
(** ** src/utils/cryptoHelpers.js *)

(** The source of randomness is a stream of bytes; [randomBytes n] takes
    the next [n] of them. *)
Definition entropy := nat -> byte.

Definition randomBytes (n : nat) (rng : entropy) : list byte * entropy :=
  (List.map rng (List.seq 0 n), fun i => rng (n + i)).

(** [crypto.timingSafeEqual(a, b)] throws a RangeError on buffers of
    different lengths. *)
Definition timingSafeEqual (a b : list byte) : result bool :=
  if negb (List.length a =? List.length b) then Throw RangeError
  else Ok (bool_decide (a = b)).

Section SafeEqual.
Variable primitive : list byte -> list byte -> result bool.

Definition safeEqual_with (a b : bufstr) : result bool :=
  let a := to_buffer a in
  let b := to_buffer b in
  if negb (List.length a =? List.length b) then Ok false
  else primitive a b.
End SafeEqual.

Definition safeEqual : bufstr -> bufstr -> result bool :=
  safeEqual_with timingSafeEqual.

(** [safeEqual] does not check the type of its arguments. What may reach
    it: a Buffer or a string, as documented, or a number, null or
    undefined (arrays and other objects are left out). *)
Inductive argument :=
| ABuf (b : list byte)
| AStr (s : string)
| ANumber (n : Z)
| ANull
| AUndefined.

(** [Buffer.from(a)]: the bytes of a string, a copy of a Buffer; a
    TypeError on a number, on null and on undefined. *)
Definition Buffer_from (a : argument) : result (list byte) :=
  match a with
  | ABuf b => Ok b
  | AStr s => Ok (utf8 s)
  | ANumber _ | ANull | AUndefined => Throw TypeError
  end.

(** [if (!Buffer.isBuffer(a)) a = Buffer.from(a);]: a Buffer is kept,
    anything else is converted. *)
Definition to_buffer_any (a : argument) : result (list byte) :=
  match a with
  | ABuf b => Ok b
  | AStr _ | ANumber _ | ANull | AUndefined => Buffer_from a
  end.

Section SafeEqualAny.
Variable primitive : list byte -> list byte -> result bool.

(** [if (!Buffer.isBuffer(a)) a = Buffer.from(a);
     if (!Buffer.isBuffer(b)) b = Buffer.from(b);
     if (a.length !== b.length) return false;
     return crypto.timingSafeEqual(a, b);] *)
Definition safeEqual_any_with (a b : argument) : result bool :=
  a ← to_buffer_any a;
  b ← to_buffer_any b;
  if negb (List.length a =? List.length b) then Ok false
  else primitive a b.
End SafeEqualAny.

Definition safeEqual_any : argument -> argument -> result bool :=
  safeEqual_any_with timingSafeEqual.

(* ================================================================== *)
(** ** src/storage/memory.js

    The store is the [Map] of the closure together with the timers that
    [set] has scheduled and that have not fired yet. Every operation takes
    the value of [Date.now()] at which it runs. *)

Record entry := Entry { val : string; exp : option Z }.

Record timer := Timer { due : Z; target : string }.

Record memory := Memory { map : gmap string entry; timers : list timer }.

Definition createMemoryStore : memory := Memory ∅ [].

(** [setTimeout(f, delay)]: a delay below 1 or above 2^31 - 1 is set to 1. *)
Definition timeout_delay (delay : Z) : Z :=
  if ((delay <? 1) || (2147483647 <? delay))%Z then 1%Z else delay.

(** [get(k)]: [const e = map.get(k); if (!e) return null;
    if (e.exp && Date.now() > e.exp) { map.delete(k); return null; }
    return e.val;] *)
Definition mem_get (now : Z) (k : string) (m : memory) : option string * memory :=
  match map m !! k with
  | None => (None, m)
  | Some e =>
      match exp e with
      | Some x =>
          if (negb (x =? 0) && (now >? x))%Z
          then (None, Memory (delete k (map m)) (timers m))
          else (Some (val e), m)
      | None => (Some (val e), m)
      end
  end.

(** [set(k, v, ttlSec)]: [const exp = ttlSec ? Date.now() + ttlSec * 1000 : null;
    map.set(k, { val: v, exp });
    if (ttlSec) setTimeout(() => map.delete(k), ttlSec * 1000 + 100);] *)
Definition mem_set (now : Z) (k v : string) (ttlSec : Z) (m : memory) : memory :=
  let exp := if (ttlSec =? 0)%Z then None else Some (now + ttlSec * 1000)%Z in
  Memory (<[k := Entry v exp]> (map m))
         (if (ttlSec =? 0)%Z then timers m
          else timers m ++ [Timer (now + timeout_delay (ttlSec * 1000 + 100))%Z k]).

(** [del(k)]: [map.delete(k)] *)
Definition mem_del (k : string) (m : memory) : memory :=
  Memory (delete k (map m)) (timers m).

(** A turn of the event loop at time [now]: every timer that is due runs
    its callback [() => map.delete(k)] and is gone. *)
Definition is_due (now : Z) (t : timer) : bool := (due t <=? now)%Z.

Definition run_timers (now : Z) (m : memory) : memory :=
  Memory (List.fold_left (fun mp t => if is_due now t then delete (target t) mp else mp)
                         (timers m) (map m))
         (List.filter (fun t => negb (is_due now t)) (timers m)).

(** What a client of the store does, and what the event loop does between
    two of its calls. *)
Inductive store_op :=
| OGet (k : string)
| OSet (k v : string) (ttlSec : Z)
| ODel (k : string)
| OTimers.

Definition store_step (now : Z) (op : store_op) (m : memory) : option string * memory :=
  match op with
  | OGet k => mem_get now k m
  | OSet k v ttl => (None, mem_set now k v ttl m)
  | ODel k => (None, mem_del k m)
  | OTimers => (None, run_timers now m)
  end.

(** A run: the operations with the times at which they happen, in order;
    the result is what the last one returned. *)
Fixpoint store_run (ops : list (Z * store_op)) (m : memory) : option string * memory :=
  match ops with
  | [] => (None, m)
  | [(now, op)] => store_step now op m
  | (now, op) :: rest => store_run rest (snd (store_step now op m))
  end.

(* ================================================================== *)
(** ** src/token/mask.js *)

Definition xor_bytes (a b : list byte) : list byte :=
  List.map (fun p => byte_xor (fst p) (snd p)) (List.combine a b).

(** Modelled from the spec: src/token/mask.js is not among the sources.
    "generate pad of the same length as secret using the random primitive;
    compute masked[i] = pad[i] XOR secret[i]; encode pad ‖ masked with the
    text codec." *)
Definition makeMaskedToken (secret : list byte) (rng : entropy) : string * entropy :=
  let (pad, rng') := randomBytes (List.length secret) rng in
  (encode (pad ++ xor_bytes pad secret), rng').

(** Modelled from the spec: src/token/mask.js is not among the sources.
    "decode text; fails with MalformedToken if decoded length is odd, zero,
    or otherwise not partitionable into two equal halves; split into pad,
    masked; recover secret[i] = pad[i] XOR masked[i]." *)
Definition unmaskToken (token : jsval) : result (list byte) :=
  raw ← decode token;
  let n := List.length raw in
  if (n =? 0) || negb (n mod 2 =? 0) then Throw MalformedToken
  else
    let pad := List.firstn (n / 2) raw in
    let masked := List.skipn (n / 2) raw in
    Ok (xor_bytes pad masked).

(* ================================================================== *)
(** ** Platform: [JSON.parse] and [JSON.stringify]

    A number written as an integer is held as its value; one with a
    fraction or an exponent is held as its literal (its value is a double).
    A string is held as the UTF-8 encoding of its value. *)

Inductive json :=
| JNull
| JBool (b : bool)
| JInt (z : Z)
| JNumber (literal : string)
| JString (s : string)
| JArray (items : list json)
| JObject (members : list (string * json)).

Definition dquote : ascii := ascii_of_nat 34.
Definition backslash : ascii := ascii_of_nat 92.

Definition is_ws (c : ascii) : bool :=
  let n := N_of_ascii c in
  ((n =? 32) || (n =? 9) || (n =? 10) || (n =? 13))%N.

Fixpoint skip_ws (s : string) : string :=
  match s with
  | String c r => if is_ws c then skip_ws r else s
  | EmptyString => s
  end.

Definition is_digit (c : ascii) : bool :=
  let n := N_of_ascii c in ((48 <=? n) && (n <=? 57))%N.

(** The leading digits of [s] and what follows them. *)
Fixpoint span_digits (s : string) : string * string :=
  match s with
  | String c r =>
      if is_digit c then let (d, rest) := span_digits r in (String c d, rest)
      else (EmptyString, s)
  | EmptyString => (EmptyString, s)
  end.

Fixpoint decimal_value (acc : Z) (digits : string) : Z :=
  match digits with
  | String c r => decimal_value (acc * 10 + (Z.of_N (N_of_ascii c) - 48))%Z r
  | EmptyString => acc
  end.

Definition hex_value (c : ascii) : option N :=
  let n := N_of_ascii c in
  if ((48 <=? n) && (n <=? 57))%N then Some (n - 48)%N
  else if ((65 <=? n) && (n <=? 70))%N then Some (n - 55)%N
  else if ((97 <=? n) && (n <=? 102))%N then Some (n - 87)%N
  else None.

Definition hex4 (a b c d : ascii) : option N :=
  a ← hex_value a; b ← hex_value b; c ← hex_value c; d ← hex_value d;
  Some (((a * 16 + b) * 16 + c) * 16 + d)%N.

(** [s] without the prefix [p], when it starts with it. *)
Fixpoint after_prefix (p s : string) : option string :=
  match p, s with
  | EmptyString, _ => Some s
  | String a p', String b s' => if Ascii.eqb a b then after_prefix p' s' else None
  | String _ _, EmptyString => None
  end.

(** The items of a string literal: a character of the text, or the code
    unit of a [\uXXXX] escape. *)
Inductive item :=
| Raw (c : ascii)
| Esc (u : N).

Definition simple_escape (c : ascii) : option ascii :=
  let n := N_of_ascii c in
  if (n =? 34)%N then Some dquote
  else if (n =? 92)%N then Some backslash
  else if (n =? 47)%N then Some "/"%char
  else if (n =? 98)%N then Some (ascii_of_nat 8)
  else if (n =? 102)%N then Some (ascii_of_nat 12)
  else if (n =? 110)%N then Some (ascii_of_nat 10)
  else if (n =? 114)%N then Some (ascii_of_nat 13)
  else if (n =? 116)%N then Some (ascii_of_nat 9)
  else None.

Definition push {A B} (x : A) (o : option (list A * B)) : option (list A * B) :=
  match o with
  | Some (l, b) => Some (x :: l, b)
  | None => None
  end.

(** The items after the opening quote up to the closing one, and what
    follows it. *)
Fixpoint string_items (s : string) : option (list item * string) :=
  match s with
  | EmptyString => None
  | String c r =>
      if Ascii.eqb c dquote then Some ([], r)
      else if Ascii.eqb c backslash then
        match r with
        | String e r' =>
            if Ascii.eqb e "u"%char then
              match r' with
              | String h1 (String h2 (String h3 (String h4 r''))) =>
                  match hex4 h1 h2 h3 h4 with
                  | Some u => push (Esc u) (string_items r'')
                  | None => None
                  end
              | _ => None
              end
            else
              match simple_escape e with
              | Some c' => push (Raw c') (string_items r')
              | None => None
              end
        | EmptyString => None
        end
      else if (N_of_ascii c <? 32)%N then None
      else push (Raw c) (string_items r)
  end.

(** The UTF-8 encoding of a code point (the three-byte form for a
    surrogate on its own). *)
Definition utf8_encode (cp : N) : string :=
  let ch (n : N) := ascii_of_N n in
  (if cp <? 0x80 then String (ch cp) EmptyString
   else if cp <? 0x800 then
     String (ch (0xC0 + cp / 64)) (String (ch (0x80 + cp mod 64)) EmptyString)
   else if cp <? 0x10000 then
     String (ch (0xE0 + cp / 4096))
       (String (ch (0x80 + (cp / 64) mod 64)) (String (ch (0x80 + cp mod 64)) EmptyString))
   else
     String (ch (0xF0 + cp / 262144))
       (String (ch (0x80 + (cp / 4096) mod 64))
          (String (ch (0x80 + (cp / 64) mod 64))
             (String (ch (0x80 + cp mod 64)) EmptyString))))%N.

Definition is_high (u : N) : bool := ((0xD800 <=? u) && (u <=? 0xDBFF))%N.
Definition is_low (u : N) : bool := ((0xDC00 <=? u) && (u <=? 0xDFFF))%N.

Fixpoint items_value (l : list item) : string :=
  match l with
  | [] => EmptyString
  | Raw c :: t => String c (items_value t)
  | Esc u :: t =>
      match t with
      | Esc v :: t' =>
          if is_high u && is_low v
          then utf8_encode (0x10000 + (u - 0xD800) * 0x400 + (v - 0xDC00))%N +:+ items_value t'
          else utf8_encode u +:+ items_value t
      | _ => utf8_encode u +:+ items_value t
      end
  end.

Definition parse_string (s : string) : option (string * string) :=
  match string_items s with
  | Some (l, rest) => Some (items_value l, rest)
  | None => None
  end.

(** A number: an optional minus sign; 0, or a digit from 1 to 9 and any
    digits; an optional point and one digit or more; an optional e or E,
    an optional sign and one digit or more. *)
Definition parse_number (s : string) : option (json * string) :=
  let (neg, s1) :=
    match s with
    | String "-" r => (true, r)
    | _ => (false, s)
    end in
  let sign := if neg then "-" else EmptyString in
  let (int, s2) :=
    match s1 with
    | String "0" r => ("0", r)
    | _ => span_digits s1
    end in
  if is_empty int then None
  else
    let frac :=
      match s2 with
      | String "." r =>
          let (d, r') := span_digits r in
          if is_empty d then None else Some ("." +:+ d, r')
      | _ => Some (EmptyString, s2)
      end in
    match frac with
    | None => None
    | Some (f, s3) =>
        let expo :=
          match s3 with
          | String c r =>
              if Ascii.eqb c "e"%char || Ascii.eqb c "E"%char then
                let (sg, r1) :=
                  match r with
                  | String "+" r1 => ("+", r1)
                  | String "-" r1 => ("-", r1)
                  | _ => (EmptyString, r)
                  end in
                let (d, r2) := span_digits r1 in
                if is_empty d then None else Some ("e" +:+ sg +:+ d, r2)
              else Some (EmptyString, s3)
          | EmptyString => Some (EmptyString, s3)
          end in
        match expo with
        | None => None
        | Some (e, s4) =>
            if is_empty f && is_empty e
            then Some (JInt (if neg then - decimal_value 0 int else decimal_value 0 int)%Z, s4)
            else Some (JNumber (sign +:+ int +:+ f +:+ e), s4)
        end
    end.

Fixpoint parse_value (fuel : nat) (s : string) : option (json * string) :=
  match fuel with
  | O => None
  | S fuel' =>
      match skip_ws s with
      | EmptyString => None
      | String c r as s0 =>
          if Ascii.eqb c "n"%char then r' ← after_prefix "null" s0; Some (JNull, r')
          else if Ascii.eqb c "t"%char then r' ← after_prefix "true" s0; Some (JBool true, r')
          else if Ascii.eqb c "f"%char then r' ← after_prefix "false" s0; Some (JBool false, r')
          else if Ascii.eqb c dquote then
            match parse_string r with
            | Some (v, r') => Some (JString v, r')
            | None => None
            end
          else if Ascii.eqb c "["%char then
            match skip_ws r with
            | String "]" r' => Some (JArray [], r')
            | _ => parse_elements fuel' r []
            end
          else if Ascii.eqb c "{"%char then
            match skip_ws r with
            | String "}" r' => Some (JObject [], r')
            | _ => parse_members fuel' r []
            end
          else parse_number s0
      end
  end
with parse_elements (fuel : nat) (s : string) (acc : list json) : option (json * string) :=
  match fuel with
  | O => None
  | S fuel' =>
      match parse_value fuel' s with
      | Some (v, r) =>
          match skip_ws r with
          | String "," r' => parse_elements fuel' r' (v :: acc)
          | String "]" r' => Some (JArray (List.rev (v :: acc)), r')
          | _ => None
          end
      | None => None
      end
  end
with parse_members (fuel : nat) (s : string) (acc : list (string * json)) : option (json * string) :=
  match fuel with
  | O => None
  | S fuel' =>
      match skip_ws s with
      | String c r =>
          if Ascii.eqb c dquote then
            match parse_string r with
            | Some (k, r1) =>
                match skip_ws r1 with
                | String ":" r2 =>
                    match parse_value fuel' r2 with
                    | Some (v, r3) =>
                        match skip_ws r3 with
                        | String "," r4 => parse_members fuel' r4 ((k, v) :: acc)
                        | String "}" r4 => Some (JObject (List.rev ((k, v) :: acc)), r4)
                        | _ => None
                        end
                    | None => None
                    end
                | _ => None
                end
            | None => None
            end
          else None
      | EmptyString => None
      end
  end.

(** [JSON.parse(text)]: a SyntaxError on what is not one JSON value. *)
Definition JSON_parse (text : string) : result json :=
  match parse_value (2 * String.length text + 2) text with
  | Some (v, rest) => if is_empty (skip_ws rest) then Ok v else Throw SyntaxError
  | None => Throw SyntaxError
  end.

(** The decimal digits of a number, as [JSON.stringify] writes an integer. *)
Fixpoint pos_digits (fuel : nat) (n : Z) (acc : string) : string :=
  match fuel with
  | O => acc
  | S fuel' =>
      let acc' := String (ascii_of_N (Z.to_N (48 + n mod 10))) acc in
      if (n <? 10)%Z then acc' else pos_digits fuel' (n / 10)%Z acc'
  end.

Definition number_string (z : Z) : string :=
  if (z <? 0)%Z then "-" +:+ pos_digits (Z.to_nat (Z.log2 (- z)) + 1) (- z)%Z EmptyString
  else pos_digits (Z.to_nat (Z.log2 z) + 1) z EmptyString.

(** [s] between double quotes *)
Definition quoted (s : string) : string :=
  String dquote s +:+ String dquote EmptyString.

(** [JSON.stringify({ iat, exp })] *)
Definition stringify_iat_exp (iat exp : Z) : string :=
  "{" +:+ quoted "iat" +:+ ":" +:+ number_string iat +:+ ","
      +:+ quoted "exp" +:+ ":" +:+ number_string exp +:+ "}".

(** [v.name] on a parsed value: an own member of an object (the last of
    that name), undefined on anything else. *)
Definition get_member (v : json) (name : string) : option json :=
  match v with
  | JObject members =>
      List.fold_left (fun found kv => if String.eqb (fst kv) name then Some (snd kv) else found)
                     members None
  | _ => None
  end.

(* ================================================================== *)
(** ** src/token/stateless.js *)

(** [buf.lastIndexOf(x)]: the index of the last [x], or -1. *)
Fixpoint lastIndexOf (buf : list byte) (x : byte) : Z :=
  match buf with
  | [] => (-1)%Z
  | b :: r =>
      let i := lastIndexOf r x in
      if (0 <=? i)%Z then (i + 1)%Z
      else if bool_decide (b = x) then 0%Z else (-1)%Z
  end.

Definition separator : byte := Byte.x2e.

Definition signPayload (payloadStr : string) (key : jsval) : result string :=
  mac ← createHmac_digest key payloadStr;
  Ok (encode (utf8 payloadStr ++ [separator] ++ mac)).

(** [{ ok, payload }]; [JNull] is the payload [null]. *)
Record verdict := Verdict { ok : bool; payload : json }.

Definition verifySignedToken (tokenStr : jsval) (key : jsval) : verdict :=
  try_catch
    (raw ← decode tokenStr;
     let dotIdx := lastIndexOf raw separator in
     if (dotIdx <=? 0)%Z then Ok (Verdict false JNull)
     else
       let payloadBuf := List.firstn (Z.to_nat dotIdx) raw in
       let macBuf := List.skipn (Z.to_nat (dotIdx + 1)) raw in
       let payloadStr := toString_utf8 payloadBuf in
       expected ← createHmac_digest key payloadStr;
       if negb (List.length macBuf =? List.length expected) then Ok (Verdict false JNull)
       else
         same ← safeEqual (Buf macBuf) (Buf expected);
         if negb same then Ok (Verdict false JNull)
         else
           let payload := try_catch (JSON_parse payloadStr) (fun _ => JNull) in
           Ok (Verdict true payload))
    (fun _ => Verdict false JNull).

(** [createStatelessToken(ttlMs, key)], called when [Date.now()] is [now].
    The source adds doubles and writes the double of the sum; the sum and
    its decimal text here are those of the integers, which is the same
    as long as [now], [ttlMs] and [now + ttlMs] are safe integers (at most
    2^53 - 1 in absolute value). Beyond that range the source rounds,
    and from 1e21 on writes an exponent: the statements about the tokens
    that are made keep to the safe range. *)
Definition createStatelessToken (now : Z) (ttlMs : Z) (key : jsval) : result string :=
  let iat := now in
  let payload := stringify_iat_exp iat (iat + ttlMs) in
  signPayload payload key.

(* ================================================================== *)
(** ** src/middleware.js *)

(** What the engine takes from the platform and does not compute here:
    the host of a URL, and the coercions of JavaScript on the values that
    are not integers. *)
Record platform := Platform {
  (** [new URL(s).host]; the constructor throws on what is not a URL *)
  URL_host : string -> result string;
  (** the truthiness of the double that a literal with a fraction or an
      exponent denotes *)
  number_truthy : string -> bool;
  (** [now > v] for a value [v] that is not an integer *)
  gt_coerced : Z -> json -> bool
}.

(** A store object over the state [W] of what it keeps; a method may be
    missing. [get] resolves to the stored string or to null. *)
Record store_obj (W : Type) := StoreObj {
  st_get : option (Z -> string -> W -> result (option string) * W);
  st_set : option (Z -> string -> string -> Z -> W -> result unit * W);
  st_del : option (Z -> string -> W -> result unit * W)
}.
Arguments StoreObj {W} st_get st_set st_del.
Arguments st_get {W} s.
Arguments st_set {W} s.
Arguments st_del {W} s.

(** The methods of the object that [createMemoryStore()] returns. *)
Definition memory_get (now : Z) (k : string) (m : memory) : result (option string) * memory :=
  let (r, m') := mem_get now k m in (Ok r, m').

Definition memory_set (now : Z) (k v : string) (ttlSec : Z) (m : memory)
  : result unit * memory :=
  (Ok tt, mem_set now k v ttlSec m).

Definition memory_del (now : Z) (k : string) (m : memory) : result unit * memory :=
  (Ok tt, mem_del k m).

Definition memory_store : store_obj memory :=
  StoreObj (Some memory_get) (Some memory_set) (Some memory_del).

(** The options after the merge. [store] is [None] for a value that is
    not truthy; [mask], [originCheck] and [stateless] are the truthiness
    of the values given. [cookieOptions] is left out: only the cookie
    writer reads it. *)
Record options (W : Type) := Options {
  cookieName : string;
  cookieSidName : string;
  headerName : string;
  fieldName : string;
  store : option (store_obj W);
  ttl : Z;
  secretLen : nat;
  mask : bool;
  originCheck : bool;
  allowedMethods : list string;
  stateless : bool;
  statelessKey : jsval;
  statelessTTL : Z
}.
Arguments Options {W}.
Arguments cookieName {W} o.
Arguments cookieSidName {W} o.
Arguments headerName {W} o.
Arguments fieldName {W} o.
Arguments store {W} o.
Arguments ttl {W} o.
Arguments secretLen {W} o.
Arguments mask {W} o.
Arguments originCheck {W} o.
Arguments allowedMethods {W} o.
Arguments stateless {W} o.
Arguments statelessKey {W} o.
Arguments statelessTTL {W} o.

(** [userOpts]: a property is given ([Some]) or not. *)
Record user_options (W : Type) := UserOptions {
  u_cookieName : option string;
  u_cookieSidName : option string;
  u_headerName : option string;
  u_fieldName : option string;
  u_store : option (option (store_obj W));
  u_ttl : option Z;
  u_secretLen : option nat;
  u_mask : option bool;
  u_originCheck : option bool;
  u_allowedMethods : option (list string);
  u_stateless : option bool;
  u_statelessKey : option jsval;
  u_statelessTTL : option Z
}.
Arguments UserOptions {W}.
Arguments u_cookieName {W} u.
Arguments u_cookieSidName {W} u.
Arguments u_headerName {W} u.
Arguments u_fieldName {W} u.
Arguments u_store {W} u.
Arguments u_ttl {W} u.
Arguments u_secretLen {W} u.
Arguments u_mask {W} u.
Arguments u_originCheck {W} u.
Arguments u_allowedMethods {W} u.
Arguments u_stateless {W} u.
Arguments u_statelessKey {W} u.
Arguments u_statelessTTL {W} u.

(** [createMiddleware()], [createMiddleware({})] *)
Definition no_options {W} : user_options W :=
  UserOptions None None None None None None None None None None None None None.

(** The request, as the engine reads it. *)
Record request := Request {
  (** [req.method] *)
  method : string;
  (** [req.get(name)] *)
  header : string -> option string;
  (** [req.body], when a body parser has set it, and [req.body[name]] *)
  body : option (string -> jsval);
  (** [req.query] and [req.query[name]] *)
  query : option (string -> jsval);
  (** [req.session && req.session.id] *)
  session_id : option string;
  (** [req.cookies] and [req.cookies[name]] *)
  cookies : option (string -> option string)
}.

(** [next()], or [res.status(code).send(text)]. *)
Inductive outcome :=
| Next
| Send (status : Z) (text : string).

Definition of_string (o : option string) : jsval :=
  match o with
  | Some s => VStr s
  | None => undefined
  end.

(** [o && o[name]] *)
Definition field (o : option (string -> jsval)) (name : string) : jsval :=
  match o with
  | Some f => f name
  | None => undefined
  end.

(** [l.includes(x)] *)
Definition includes (l : list string) (x : string) : bool :=
  existsb (String.eqb x) l.

Definition nonempty (o : option string) : option string :=
  match o with
  | Some s => if is_empty s then None else Some s
  | None => None
  end.

Section Engine.
Variable P : platform.
Variable W : Type.
(** The methods of the store made once when the module is loaded. *)
Variable default_get : Z -> string -> W -> result (option string) * W.
Variable default_set : Z -> string -> string -> Z -> W -> result unit * W.
Variable default_del : Z -> string -> W -> result unit * W.

Definition DEFAULTS : options W :=
  {| cookieName := "CSRF_PLUS_TOKEN";
     cookieSidName := "CSRF_PLUS_SID";
     headerName := "x-csrf-plus";
     fieldName := "_csrf";
     store := Some (StoreObj (Some default_get) (Some default_set) (Some default_del));
     ttl := 60 * 60;
     secretLen := 32;
     mask := true;
     originCheck := true;
     allowedMethods := ["GET"; "HEAD"; "OPTIONS"];
     stateless := false;
     statelessKey := VOther false;
     statelessTTL := 60 * 60 * 1000 |}.

(** [Object.assign({}, DEFAULTS, userOpts)] *)
Definition assign (d : options W) (u : user_options W) : options W :=
  {| cookieName := default (cookieName d) (u_cookieName u);
     cookieSidName := default (cookieSidName d) (u_cookieSidName u);
     headerName := default (headerName d) (u_headerName u);
     fieldName := default (fieldName d) (u_fieldName u);
     store := default (store d) (u_store u);
     ttl := default (ttl d) (u_ttl u);
     secretLen := default (secretLen d) (u_secretLen u);
     mask := default (mask d) (u_mask u);
     originCheck := default (originCheck d) (u_originCheck u);
     allowedMethods := default (allowedMethods d) (u_allowedMethods u);
     stateless := default (stateless d) (u_stateless u);
     statelessKey := default (statelessKey d) (u_statelessKey u);
     statelessTTL := default (statelessTTL d) (u_statelessTTL u) |}.

(** [!opts.store || !opts.store.get] *)
Definition no_store_get (opts : options W) : bool :=
  match store opts with
  | Some s => negb (bool_decide (is_Some (st_get s)))
  | None => true
  end.

Definition json_truthy (v : json) : bool :=
  match v with
  | JNull => false
  | JBool b => b
  | JInt z => negb (z =? 0)%Z
  | JNumber literal => number_truthy P literal
  | JString s => negb (is_empty s)
  | JArray _ | JObject _ => true
  end.

(** [Date.now() > v] *)
Definition now_gt (now : Z) (v : json) : bool :=
  match v with
  | JInt z => (now >? z)%Z
  | _ => gt_coerced P now v
  end.

(** [payload && payload.exp && Date.now() > payload.exp] *)
Definition expired (now : Z) (payload : json) : bool :=
  json_truthy payload &&
  match get_member payload "exp" with
  | Some e => json_truthy e && now_gt now e
  | None => false
  end.

(** [try { ok = new URL(s).host === host } catch (e) { ok = false }] *)
Definition same_host (s : string) (host : option string) : bool :=
  try_catch (h ← URL_host P s; Ok (bool_decide (Some h = host))) (fun _ => false).

(** The value of [ok] after the Origin and Referer checks. *)
Definition origin_ok (req : request) : bool :=
  let origin := header req "origin" in
  let referer := header req "referer" in
  let host := header req "host" in
  match nonempty origin with
  | Some o => same_host o host
  | None =>
      match nonempty referer with
      | Some r => same_host r host
      | None => false
      end
  end.

(** [req.get(opts.headerName) || (req.body && req.body[opts.fieldName])
     || (req.query && req.query[opts.fieldName]) || null] *)
Definition extract_token (opts : options W) (req : request) : jsval :=
  js_or (of_string (header req (headerName opts)))
    (js_or (field (body req) (fieldName opts))
       (js_or (field (query req) (fieldName opts)) (VOther false))).

(** [(req.session && req.session.id) || req.get('x-session-id')
     || (req.cookies && req.cookies[opts.cookieSidName])], when truthy *)
Definition session_key (opts : options W) (req : request) : option string :=
  match nonempty (session_id req) with
  | Some k => Some k
  | None =>
      match nonempty (header req "x-session-id") with
      | Some k => Some k
      | None =>
          match cookies req with
          | Some c => nonempty (c (cookieSidName opts))
          | None => None
          end
      end
  end.

(** [await opts.store.get(key)]; calling what is missing is a TypeError. *)
Definition store_get (opts : options W) (now : Z) (key : string) (w : W)
  : result (option string) * W :=
  match store opts with
  | Some s =>
      match st_get s with
      | Some get => get now key w
      | None => (Throw TypeError, w)
      end
  | None => (Throw TypeError, w)
  end.

(** [verify(req, res, next)] when [Date.now()] is [now] and the stores
    are in the state [w]. *)
Definition verify (opts : options W) (now : Z) (req : request) (w : W) : outcome * W :=
  if includes (allowedMethods opts) (method req) then (Next, w)
  else if originCheck opts && negb (origin_ok req)
  then (Send 403 "CSRF: origin/referrer mismatch.", w)
  else
    let token := extract_token opts req in
    if negb (truthy token) then (Send 403 "CSRF token missing.", w)
    else if stateless opts then
      let v := verifySignedToken token (statelessKey opts) in
      if negb (ok v) then (Send 403 "CSRF token invalid.", w)
      else if expired now (payload v) then (Send 403 "CSRF token expired.", w)
      else (Next, w)
    else
      match session_key opts req with
      | None => (Send 403 "CSRF session missing.", w)
      | Some key =>
          let (got, w') := store_get opts now key w in
          match got with
          | Throw _ => (Send 500 "CSRF verification error.", w')
          | Ok stored =>
              match nonempty stored with
              | None => (Send 403 "CSRF secret missing.", w')
              | Some storedB64 =>
                  let secret := decode_string storedB64 in
                  match (if mask opts then unmaskToken token else decode token) with
                  | Throw _ => (Send 403 "CSRF token malformed.", w')
                  | Ok provided =>
                      if negb (List.length provided =? List.length secret)
                      then (Send 403 "CSRF token length mismatch.", w')
                      else
                        match safeEqual (Buf provided) (Buf secret) with
                        | Throw _ => (Send 500 "CSRF verification error.", w')
                        | Ok false => (Send 403 "CSRF token mismatch.", w')
                        | Ok true => (Next, w')
                        end
                  end
              end
          end
      end.

(** The bundle [{ middleware, verify, adapters }]: its functions are
    closures over the merged options. *)
Record bundle := Bundle { captured : options W }.

Definition createMiddleware (userOpts : user_options W) : result bundle :=
  let opts := assign DEFAULTS userOpts in
  if negb (stateless opts) && no_store_get opts
  then Throw (Error "store required when stateless=false.")
  else if stateless opts && negb (truthy (statelessKey opts))
  then Throw (Error "statelessKey required when stateless=true")
  else Ok (Bundle opts).

(** [csrf.verify] of a bundle. *)
Definition bundle_verify (b : bundle) : Z -> request -> W -> outcome * W :=
  verify (captured b).

End Engine.

Arguments DEFAULTS {W} default_get default_set default_del.
Arguments assign {W} d u.
Arguments no_store_get {W} opts.
Arguments extract_token {W} opts req.
Arguments session_key {W} opts req.
Arguments store_get {W} opts now key w.
Arguments verify P {W} opts now req w.
Arguments Bundle {W} captured.
Arguments captured {W} b.
Arguments createMiddleware {W} default_get default_set default_del userOpts.
Arguments bundle_verify P {W} b now req w.

(* ================================================================== *)
(** ** src/middleware.js: the secret of a client and the token cookie *)

(** The response, as the engine writes it: the cookies that
    [res.cookie(name, value, options)] has set, in order. The options of
    a cookie are not kept. *)
Record response := Response { set_cookies : list (string * string) }.

Definition res_cookie (name value : string) (r : response) : response :=
  Response (set_cookies r ++ [(name, value)]).

(** What the handlers of a request change: the source of randomness, the
    response and the state of the stores. *)
Record world (W : Type) := World { rng : entropy; res : response; stores : W }.
Arguments World {W} rng res stores.
Arguments rng {W} w.
Arguments res {W} w.
Arguments stores {W} w.

Section Minting.
Variable W : Type.

(** [await opts.store.set(key, value, ttl)]; calling what is missing is a
    TypeError. *)
Definition store_set (opts : options W) (now : Z) (key value : string) (ttlSec : Z) (w : W)
  : result unit * W :=
  match store opts with
  | Some s =>
      match st_set s with
      | Some set => set now key value ttlSec w
      | None => (Throw TypeError, w)
      end
  | None => (Throw TypeError, w)
  end.

(** [getOrCreateSecret(req, res)] when [Date.now()] is [now]: null in
    stateless mode, [{ key, secret }] otherwise. *)
Definition getOrCreateSecret (opts : options W) (now : Z) (req : request) (wd : world W)
  : result (option (string * list byte)) * world W :=
  if stateless opts then (Ok None, wd)
  else
    let key :=
      match nonempty (session_id req) with
      | Some k => Some k
      | None => nonempty (header req "x-session-id")
      end in
    let (key, wd) :=
      match key with
      | Some k => (k, wd)
      | None =>
          let key :=
            match cookies req with
            | Some c => nonempty (c (cookieSidName opts))
            | None => None
            end in
          match key with
          | Some k => (k, wd)
          | None =>
              let (bytes, rng') := randomBytes 16 (rng wd) in
              let k := encode bytes in
              (k, World rng' (res_cookie (cookieSidName opts) k (res wd)) (stores wd))
          end
      end in
    let (got, w1) := store_get opts now key (stores wd) in
    match got with
    | Throw e => (Throw e, World (rng wd) (res wd) w1)
    | Ok stored =>
        match nonempty stored with
        | None =>
            let (secret, rng') := randomBytes (secretLen opts) (rng wd) in
            let (done, w2) := store_set opts now key (encode secret) (ttl opts) w1 in
            match done with
            | Throw e => (Throw e, World rng' (res wd) w2)
            | Ok _ => (Ok (Some (key, secret)), World rng' (res wd) w2)
            end
        | Some storedB64 =>
            (Ok (Some (key, decode_string storedB64)), World (rng wd) (res wd) w1)
        end
    end.

(** [req.csrfPlus.token()]; taking [secret] out of null is a TypeError. *)
Definition csrfPlus_token (opts : options W) (now : Z) (req : request) (wd : world W)
  : result string * world W :=
  if stateless opts
  then (createStatelessToken now (statelessTTL opts) (statelessKey opts), wd)
  else
    let (got, wd) := getOrCreateSecret opts now req wd in
    match got with
    | Throw e => (Throw e, wd)
    | Ok None => (Throw TypeError, wd)
    | Ok (Some (_, secret)) =>
        if mask opts then
          let (t, rng') := makeMaskedToken secret (rng wd) in
          (Ok t, World rng' (res wd) (stores wd))
        else (Ok (encode secret), wd)
    end.

(** [middleware(req, res, next)]: the token cookie is set when the token
    could be made; [next()] runs in every case. *)
Definition middleware (opts : options W) (now : Z) (req : request) (wd : world W)
  : outcome * world W :=
  let (got, wd) := csrfPlus_token opts now req wd in
  match got with
  | Ok t => (Next, World (rng wd) (res_cookie (cookieName opts) t (res wd)) (stores wd))
  | Throw _ => (Next, wd)
  end.

End Minting.

Arguments store_set {W} opts now key value ttlSec w.
Arguments getOrCreateSecret {W} opts now req wd.
Arguments csrfPlus_token {W} opts now req wd.
Arguments middleware {W} opts now req wd.

(* ================================================================== *)
(** ** src/storage/redis.js *)

(** The client that the adapter wraps, over the state [R] of the server:
    [client.get(k)], [client.set(k, v)] and [client.set(k, v, 'EX', ttl)],
    [client.del(k)]. *)
Record redis_client (R : Type) := RedisClient {
  client_get : Z -> string -> R -> result (option string) * R;
  client_set : Z -> string -> string -> option Z -> R -> result unit * R;
  client_del : Z -> string -> R -> result unit * R
}.
Arguments RedisClient {R} client_get client_set client_del.
Arguments client_get {R} r.
Arguments client_set {R} r.
Arguments client_del {R} r.

Section RedisAdapter.
Variable R : Type.
Variable redisClient : redis_client R.

(** [const v = await redisClient.get(k); return v === null ? null : v;] *)
Definition redis_get (now : Z) (k : string) (r : R) : result (option string) * R :=
  let (v, r') := client_get redisClient now k r in
  (v ← v; Ok (match v with None => None | Some s => Some s end), r').

(** [if (ttlSec) await redisClient.set(k, v, 'EX', ttlSec);
     else await redisClient.set(k, v);] *)
Definition redis_set (now : Z) (k v : string) (ttlSec : Z) (r : R) : result unit * R :=
  if (ttlSec =? 0)%Z then client_set redisClient now k v None r
  else client_set redisClient now k v (Some ttlSec) r.

Definition redis_del (now : Z) (k : string) (r : R) : result unit * R :=
  client_del redisClient now k r.

Definition redisAdapter : store_obj R :=
  StoreObj (Some redis_get) (Some redis_set) (Some redis_del).

End RedisAdapter.

Arguments redis_get {R} redisClient now k r.
Arguments redis_set {R} redisClient now k v ttlSec r.
Arguments redis_del {R} redisClient now k r.
Arguments redisAdapter {R} redisClient.

(** The client of tests/middleware.spec.ts: a [Map] of values with the
    time at which each lapses, read lazily. *)
Definition mock_get (now : Z) (k : string) (mockMap : gmap string entry)
  : result (option string) * gmap string entry :=
  match mockMap !! k with
  | None => (Ok None, mockMap)
  | Some e =>
      match exp e with
      | Some x =>
          if (negb (x =? 0) && (now >? x))%Z then (Ok None, delete k mockMap)
          else (Ok (Some (val e)), mockMap)
      | None => (Ok (Some (val e)), mockMap)
      end
  end.

Definition mock_set (now : Z) (k v : string) (ex : option Z) (mockMap : gmap string entry)
  : result unit * gmap string entry :=
  match ex with
  | Some ttl => (Ok tt, <[k := Entry v (Some (now + ttl * 1000)%Z)]> mockMap)
  | None => (Ok tt, <[k := Entry v None]> mockMap)
  end.

Definition mock_del (now : Z) (k : string) (mockMap : gmap string entry)
  : result unit * gmap string entry :=
  (Ok tt, delete k mockMap).

Definition mock_client : redis_client (gmap string entry) :=
  RedisClient mock_get mock_set mock_del.

(** A run of the methods of a store object, as [store_run] is one of the
    memory store; a turn of the event loop changes nothing here. *)
Definition adapter_step {W} (s : store_obj W) (now : Z) (op : store_op) (w : W)
  : result (option string) * W :=
  match op with
  | OGet k =>
      match st_get s with
      | Some get => get now k w
      | None => (Throw TypeError, w)
      end
  | OSet k v ttlSec =>
      match st_set s with
      | Some set => let (r, w') := set now k v ttlSec w in (r ≫= (fun _ => Ok None), w')
      | None => (Throw TypeError, w)
      end
  | ODel k =>
      match st_del s with
      | Some del => let (r, w') := del now k w in (r ≫= (fun _ => Ok None), w')
      | None => (Throw TypeError, w)
      end
  | OTimers => (Ok None, w)
  end.

Fixpoint adapter_run {W} (s : store_obj W) (ops : list (Z * store_op)) (w : W)
  : result (option string) * W :=
  match ops with
  | [] => (Ok None, w)
  | [(now, op)] => adapter_step s now op w
  | (now, op) :: rest => adapter_run s rest (snd (adapter_step s now op w))
  end.

(* ================================================================== *)
(** ** Vocabulary of the statements *)

(** The bytes of a key that [createHmac] accepts. *)
Definition key_bytes (key : jsval) : option (list byte) :=
  match key with
  | VStr k => Some (utf8 k)
  | VBuf k => Some k
  | VOther _ => None
  end.

(** A string is well formed when it is the text of its own UTF-8
    encoding: it holds no ill-formed sequence. *)
Definition well_formed (s : string) : Prop := toString_utf8 (utf8 s) = s.

(** The bytes of a digest in hexadecimal. *)
Definition hex (buf : list byte) : string :=
  let digit (n : N) :=
    match String.get (N.to_nat n) "0123456789abcdef" with
    | Some c => c
    | None => "?"%char
    end in
  string_of_list_ascii
    (List.concat
       (List.map (fun b => [digit (Byte.to_N b / 16)%N; digit (Byte.to_N b mod 16)%N]) buf)).

Fixpoint string_forall (Q : ascii -> bool) (s : string) : bool :=
  match s with
  | EmptyString => true
  | String c r => Q c && string_forall Q r
  end.

Definition is_not (x : ascii) (c : ascii) : bool := negb (Ascii.eqb c x).

(** A character of the URL-safe text: not [+], not [/], not [=]. *)
Definition url_safe (c : ascii) : bool :=
  is_not "+" c && is_not "/" c && is_not "=" c.

Definition pads (k : nat) : string := string_of_list_ascii (List.repeat "="%char k).

(** A platform for the closed statements: none of them reaches a URL
    or a number that is not an integer. *)
Definition no_platform : platform :=
  Platform (fun _ => Throw TypeError) (fun _ => true) (fun _ _ => false).

(** A request with the given method and the given headers, and nothing else. *)
Definition bare_request (m : string) (headers : list (string * string)) : request :=
  {| method := m;
     header := fun name =>
       List.fold_right (fun kv found => if String.eqb (fst kv) name then Some (snd kv) else found)
                       None headers;
     body := None;
     query := None;
     session_id := None;
     cookies := None |}.

(** The options of a stateless engine: [{ stateless: true, statelessKey }],
    with [originCheck] when it is given. *)
Definition stateless_options (originCheck : option bool) (key : jsval)
  : user_options memory :=
  {| u_cookieName := None; u_cookieSidName := None; u_headerName := None;
     u_fieldName := None; u_store := None; u_ttl := None; u_secretLen := None;
     u_mask := None; u_originCheck := originCheck; u_allowedMethods := None;
     u_stateless := Some true; u_statelessKey := Some key; u_statelessTTL := None |}.

(** A store with a [get] method. *)
Definition usable_store {W} (opts : options W) : Prop :=
  exists s get, store opts = Some s /\ st_get s = Some get.

(** Stateful mode with no usable store, or stateless mode with no key. *)
Definition contradictory {W} (opts : options W) : Prop :=
  (stateless opts = false /\ ~ usable_store opts) \/
  (stateless opts = true /\ truthy (statelessKey opts) = false).

(** The decimal digit of a value from 0 to 9. *)
Definition digit_char (k : Z) : ascii := ascii_of_N (Z.to_N (48 + k)).

(** A string of digits [d] that writes [n] with no leading zero. *)
Definition writes (d : string) (n : Z) : Prop :=
  string_forall is_digit d = true /\
  decimal_value 0 d = n /\
  match d with
  | EmptyString => False
  | String c _ => n <> 0%Z -> c <> "0"%char
  end.

(** The characters that end a number inside an object. *)
Definition closes (c : ascii) : Prop := c = ","%char \/ c = "}"%char.

(** A character of one byte in UTF-8. *)
Definition is_ascii (c : ascii) : bool := (N_of_ascii c <? 128)%N.

(** An integer that a double holds exactly together with its neighbours:
    [Number.isSafeInteger]. On such numbers the sum of the source is the
    sum of the integers when that sum is safe too, and [JSON.stringify]
    writes the decimal digits of the integer. *)
Definition safe_integer (z : Z) : bool :=
  ((- (2 ^ 53 - 1) <=? z) && (z <=? 2 ^ 53 - 1))%Z.

(** The byte content of an input of the documented type, in the words of
    the documentation: the bytes of the Buffer, the UTF-8 bytes of the
    string. It is written without the conversions of [safeEqual], against
    which the statements compare it. *)
Definition content (a : bufstr) : list byte :=
  match a with
  | Buf b => b
  | Str s => list_byte_of_string s
  end.

(** An input of the documented type, as an argument. *)
Definition typed (a : bufstr) : argument :=
  match a with
  | Buf b => ABuf b
  | Str s => AStr s
  end.

(** A list holds no separator byte, by computation. *)
Definition separator_free (mac : list byte) : bool :=
  forallb (fun b => negb (bool_decide (b = separator))) mac.

(** The key that an operation of a run names. *)
Definition op_key (op : store_op) : option string :=
  match op with
  | OGet k | OSet k _ _ | ODel k => Some k
  | OTimers => None
  end.

(** The state of the memory store after the operations of a run. *)
Definition run_state (ops : list (Z * store_op)) (m : memory) : memory :=
  List.fold_left (fun m top => snd (store_step (fst top) (snd top) m)) ops m.

(** The state behind a store object after the operations of a run. *)
Definition adapter_state {W} (s : store_obj W) (ops : list (Z * store_op)) (w : W) : W :=
  List.fold_left (fun w top => snd (adapter_step s (fst top) (snd top) w)) ops w.

(** The options of a stateful engine over the memory store:
    [{ mask, originCheck: false }]. *)
Definition stateful_options (mask : bool) : user_options memory :=
  {| u_cookieName := None; u_cookieSidName := None; u_headerName := None;
     u_fieldName := None; u_store := None; u_ttl := None; u_secretLen := None;
     u_mask := Some mask; u_originCheck := Some false; u_allowedMethods := None;
     u_stateless := None; u_statelessKey := None; u_statelessTTL := None |}.

(** The options of a stateless engine whose tokens live [ttlMs]:
    [{ stateless: true, statelessKey, statelessTTL, originCheck: false }]. *)
Definition short_lived_options (key : jsval) (ttlMs : Z) : user_options memory :=
  {| u_cookieName := None; u_cookieSidName := None; u_headerName := None;
     u_fieldName := None; u_store := None; u_ttl := None; u_secretLen := None;
     u_mask := None; u_originCheck := Some false; u_allowedMethods := None;
     u_stateless := Some true; u_statelessKey := Some key; u_statelessTTL := Some ttlMs |}.

Definition memory_options (u : user_options memory) : options memory :=
  assign (DEFAULTS memory_get memory_set memory_del) u.

(** A request of the session [sid] with the given method and headers. *)
Definition session_request (sid m : string) (headers : list (string * string)) : request :=
  {| method := m;
     header := header (bare_request m headers);
     body := None;
     query := None;
     session_id := Some sid;
     cookies := None |}.

(** A random source for the closed statements, and the world before the
    first request. *)
Definition sample_entropy : entropy := fun i => byte_of_N (N.of_nat (37 * i + 11)).

Definition first_world : world memory := World sample_entropy (Response []) createMemoryStore.


(* ================================================================== *)
(** * Properties *)

(* ---- bytes ---- *)
Lemma byte_to_N_lt (b : byte) : (Byte.to_N b < 256)%N.
Proof. pose proof (Byte.to_N_bounded b). lia. Qed.

Lemma byte_of_to_N (b : byte) : byte_of_N (Byte.to_N b) = b.
Proof.
  unfold byte_of_N. rewrite N.mod_small by apply byte_to_N_lt.
  by rewrite Byte.of_to_N.
Qed.

Lemma byte_of_N_eq (n : N) (b : byte) : n = Byte.to_N b -> byte_of_N n = b.
Proof. intros ->. apply byte_of_to_N. Qed.

(* ---- strings ---- *)
Lemma append_String (c : ascii) (s t : string) : String c s +:+ t = String c (s +:+ t).
Proof. reflexivity. Qed.

Lemma append_Empty (t : string) : EmptyString +:+ t = t.
Proof. reflexivity. Qed.

(* ---- the alphabet ---- *)
Lemma below_64 (Q : N -> bool) :
  List.forallb Q (List.map N.of_nat (List.seq 0 64)) = true ->
  forall n, (n < 64)%N -> Q n = true.
Proof.
  intros H n Hn. rewrite List.forallb_forall in H. apply H.
  apply List.in_map_iff. exists (N.to_nat n). split; [lia|].
  apply List.in_seq. lia.
Qed.

Lemma unbase64_b64char (n : N) : (n < 64)%N -> unbase64 (b64char n) = Some n.
Proof.
  intros Hn.
  pose proof (below_64
    (fun n => match unbase64 (b64char n) with Some m => N.eqb m n | None => false end)
    eq_refl n Hn) as H.
  cbv beta in H. destruct (unbase64 (b64char n)) as [m|]; [|discriminate H].
  apply N.eqb_eq in H. by subst m.
Qed.

Lemma b64char_not_pad (n : N) : (n < 64)%N -> Ascii.eqb (b64char n) "="%char = false.
Proof.
  intros Hn.
  pose proof (below_64 (fun n => negb (Ascii.eqb (b64char n) "="%char)) eq_refl n Hn) as H.
  cbv beta in H. by apply negb_true_iff in H.
Qed.

Lemma sextets_cons (n : N) (s : string) :
  (n < 64)%N -> sextets (String (b64char n) s) = n :: sextets s.
Proof.
  intros Hn. simpl. by rewrite b64char_not_pad, unbase64_b64char.
Qed.

(* ---- what the decoder does not see ---- *)
Lemma sextets_replace_all (x y : ascii) (s : string) :
  unbase64 x = unbase64 y ->
  Ascii.eqb x "="%char = false -> Ascii.eqb y "="%char = false ->
  sextets (replace_all x y s) = sextets s.
Proof.
  intros Hv Hx Hy. induction s as [|c s IH]; [done|].
  simpl. destruct (Ascii.eqb c x) eqn:E.
  - apply Ascii.eqb_eq in E. subst c. rewrite Hx, Hy, Hv, IH. done.
  - rewrite IH. done.
Qed.

Lemma sextets_strip_padding (s : string) : sextets (strip_padding s) = sextets s.
Proof.
  induction s as [|c s IH]; [done|].
  simpl. destruct (Ascii.eqb c "="%char) eqn:E; simpl.
  - destruct (is_empty (strip_padding s)); simpl; [done|]. by rewrite E.
  - by rewrite E, IH.
Qed.

Lemma sextets_pad_to_4 (s : string) : sextets (pad_to_4 s) = sextets s.
Proof.
  unfold pad_to_4. generalize ((4 - String.length s mod 4) mod 4). intros k.
  induction s as [|c s IH].
  - rewrite append_Empty. destruct k; done.
  - rewrite append_String. simpl. rewrite IH. done.
Qed.

Lemma decode_encode_sextets (buf : list byte) :
  decode_string (encode buf) = unsextets (sextets (base64_encode buf)).
Proof.
  unfold decode_string, encode, base64_decode.
  rewrite sextets_pad_to_4.
  rewrite !sextets_replace_all by done.
  rewrite sextets_strip_padding.
  rewrite !sextets_replace_all by done.
  done.
Qed.

(* ---- groups of three bytes ---- *)
Lemma list_ind3 {A} (Q : list A -> Prop) :
  Q [] -> (forall a, Q [a]) -> (forall a b, Q [a; b]) ->
  (forall a b c l, Q l -> Q (a :: b :: c :: l)) ->
  forall l, Q l.
Proof.
  intros H0 H1 H2 H3.
  assert (forall l, Q l /\ (forall a, Q (a :: l)) /\ (forall a b, Q (a :: b :: l))) as H.
  { induction l as [|x l (IH0 & IH1 & IH2)]; [by auto|].
    split; [apply IH1|]. split; [intros a; apply IH2|]. intros a b. apply H3, IH0. }
  intros l. apply H.
Qed.

Ltac sextet_arith :=
  repeat match goal with
         | b : byte |- _ => pose proof (byte_to_N_lt b); generalize dependent (Byte.to_N b); clear b; intros
         end;
  zify; Z.to_euclidean_division_equations; lia.

Lemma group1 (a : byte) :
  unsextets (sextets (base64_encode [a])) = [a].
Proof.
  cbn [base64_encode chars List.map string_of_list_ascii]; rewrite ?append_String, ?append_Empty.
  rewrite !sextets_cons by sextet_arith.
  cbn [sextets unsextets Ascii.eqb Bool.eqb].
  f_equal. apply byte_of_N_eq. sextet_arith.
Qed.

Lemma group2 (a b : byte) :
  unsextets (sextets (base64_encode [a; b])) = [a; b].
Proof.
  cbn [base64_encode chars List.map string_of_list_ascii]; rewrite ?append_String, ?append_Empty.
  rewrite !sextets_cons by sextet_arith.
  cbn [sextets unsextets Ascii.eqb Bool.eqb].
  f_equal; [|f_equal]; apply byte_of_N_eq; sextet_arith.
Qed.

Lemma group3 (a b c : byte) (l : list byte) :
  unsextets (sextets (base64_encode (a :: b :: c :: l))) =
  a :: b :: c :: unsextets (sextets (base64_encode l)).
Proof.
  cbn [base64_encode chars List.map string_of_list_ascii]; rewrite ?append_String, ?append_Empty.
  rewrite !sextets_cons by sextet_arith.
  cbn [unsextets].
  f_equal; [|f_equal; [|f_equal]]; apply byte_of_N_eq; sextet_arith.
Qed.

Lemma base64_roundtrip (buf : list byte) :
  unsextets (sextets (base64_encode buf)) = buf.
Proof.
  induction buf as [|a|a b|a b c l IH] using list_ind3.
  - done.
  - apply group1.
  - apply group2.
  - rewrite group3, IH. done.
Qed.

(* ---- the text of a token ---- *)
Lemma string_forall_append (Q : ascii -> bool) (s t : string) :
  string_forall Q (s +:+ t) = string_forall Q s && string_forall Q t.
Proof.
  induction s as [|c s IH]; [done|].
  rewrite append_String. cbn [string_forall]. rewrite IH. by rewrite andb_assoc.
Qed.

Lemma append_assoc (s t u : string) : (s +:+ t) +:+ u = s +:+ (t +:+ u).
Proof. induction s as [|c s IH]; [done|]. by rewrite !append_String, IH. Qed.

Lemma string_forall_and (Q R : ascii -> bool) (s : string) :
  string_forall (fun c => Q c && R c) s = string_forall Q s && string_forall R s.
Proof.
  induction s as [|c s IH]; [done|]. cbn [string_forall]. rewrite IH.
  destruct (Q c), (R c), (string_forall Q s); done.
Qed.

Lemma replace_all_append (x y : ascii) (s t : string) :
  replace_all x y (s +:+ t) = replace_all x y s +:+ replace_all x y t.
Proof.
  induction s as [|c s IH]; [done|].
  rewrite append_String. cbn [replace_all]. by rewrite IH, append_String.
Qed.

Lemma replace_all_pads (x y : ascii) (k : nat) :
  Ascii.eqb "="%char x = false -> replace_all x y (pads k) = pads k.
Proof.
  intros H. unfold pads. induction k as [|k IH]; [done|].
  cbn [List.repeat string_of_list_ascii replace_all]. by rewrite H, IH.
Qed.

Lemma replace_all_keeps (Q : ascii -> bool) (x y : ascii) (s : string) :
  Q y = true -> string_forall Q s = true -> string_forall Q (replace_all x y s) = true.
Proof.
  intros Hy. induction s as [|c s IH]; [done|].
  cbn [replace_all string_forall]. intros [Hc Hs]%andb_prop.
  rewrite IH by done. destruct (Ascii.eqb c x); by rewrite ?Hy, ?Hc.
Qed.

Lemma replace_all_removes (x y : ascii) (s : string) :
  Ascii.eqb y x = false -> string_forall (is_not x) (replace_all x y s) = true.
Proof.
  intros Hy. induction s as [|c s IH]; [done|].
  cbn [replace_all string_forall]. rewrite IH, andb_true_r. unfold is_not.
  destruct (Ascii.eqb c x) eqn:E; by rewrite ?Hy, ?E.
Qed.

Lemma strip_padding_pads (k : nat) : strip_padding (pads k) = EmptyString.
Proof.
  unfold pads. induction k as [|k IH]; [done|].
  cbn [List.repeat string_of_list_ascii strip_padding]. by rewrite IH.
Qed.

Lemma strip_padding_body (body : string) (k : nat) :
  string_forall (is_not "=") body = true -> strip_padding (body +:+ pads k) = body.
Proof.
  induction body as [|c body IH]; intros H.
  - rewrite append_Empty. apply strip_padding_pads.
  - rewrite append_String. cbn [strip_padding]. cbn [string_forall] in H.
    apply andb_prop in H as [Hc Hb]. rewrite IH by done.
    unfold is_not in Hc. apply negb_true_iff in Hc. by rewrite Hc.
Qed.

Lemma base64_encode_padded (buf : list byte) :
  exists body k,
    base64_encode buf = body +:+ pads k /\ string_forall (is_not "=") body = true.
Proof.
  induction buf as [|a|a b|a b c l (body & k & IH & Hbody)] using list_ind3.
  - by exists EmptyString, 0.
  - eexists _, 2. split; [reflexivity|].
    cbn [chars List.map string_of_list_ascii string_forall]. unfold is_not.
    rewrite !b64char_not_pad by sextet_arith. done.
  - eexists _, 1. split; [reflexivity|].
    cbn [chars List.map string_of_list_ascii string_forall]. unfold is_not.
    rewrite !b64char_not_pad by sextet_arith. done.
  - cbn [base64_encode]. rewrite IH, <- append_assoc. eexists _, k. split; [reflexivity|].
    rewrite string_forall_append, Hbody.
    cbn [chars List.map string_of_list_ascii string_forall]. unfold is_not.
    rewrite !b64char_not_pad by sextet_arith. done.
Qed.

Lemma encode_url_safe (buf : list byte) : string_forall url_safe (encode buf) = true.
Proof.
  unfold encode. destruct (base64_encode_padded buf) as (body & k & -> & Hbody).
  rewrite !replace_all_append, !replace_all_pads by done.
  set (b1 := replace_all "+" "-" body).
  set (b2 := replace_all "/" "_" b1).
  assert (string_forall (is_not "=") b2 = true) as Hpad.
  { apply replace_all_keeps; [done|]. apply replace_all_keeps; done. }
  assert (string_forall (is_not "+") b2 = true) as Hplus.
  { apply replace_all_keeps; [done|]. apply replace_all_removes. done. }
  assert (string_forall (is_not "/") b2 = true) as Hslash.
  { apply replace_all_removes. done. }
  rewrite strip_padding_body by done.
  unfold url_safe. rewrite !string_forall_and, Hplus, Hslash, Hpad. done.
Qed.

Lemma decode_encode (buf : list byte) : decode (VStr (encode buf)) = Ok buf.
Proof.
  cbn [decode]. f_equal. rewrite decode_encode_sextets. apply base64_roundtrip.
Qed.

(** C7. Text codec round trip: for every Buffer [b], decoding the
    URL-safe text that [encode] makes of it gives [b] back; the text has
    no [+], no [/] and no [=]. *)
Theorem b64url_roundtrip (b : list byte) :
  decode (VStr (encode b)) = Ok b /\ string_forall url_safe (encode b) = true.
Proof.
  split.
  - cbn [decode]. f_equal. rewrite decode_encode_sextets. apply base64_roundtrip.
  - apply encode_url_safe.
Qed.

(* ---- SHA-256: the digest has 32 bytes ---- *)
Lemma round_length (st : list Z) (kw : Z * Z) :
  List.length st = 8 -> List.length (SHA256.round st kw) = 8.
Proof.
  intros H. do 9 (destruct st as [|? st]; try discriminate H). reflexivity.
Qed.

Lemma rounds_length (kws : list (Z * Z)) (st : list Z) :
  List.length st = 8 -> List.length (List.fold_left SHA256.round kws st) = 8.
Proof.
  revert st. induction kws as [|kw kws IH]; intros st H; [done|].
  simpl. apply IH, round_length, H.
Qed.

Lemma compress_length (h block : list Z) :
  List.length h = 8 -> List.length (SHA256.compress h block) = 8.
Proof.
  intros H. unfold SHA256.compress.
  rewrite List.length_map, List.length_combine, rounds_length by done. lia.
Qed.

Lemma blocks_length (fuel : nat) (h l : list Z) :
  List.length h = 8 -> List.length (SHA256.blocks fuel h l) = 8.
Proof.
  revert h l. induction fuel as [|fuel IH]; intros h l H; [done|].
  simpl. destruct l; [done|]. apply IH, compress_length, H.
Qed.

Lemma digest_length (msg : list Z) : List.length (SHA256.digest msg) = 32.
Proof.
  unfold SHA256.digest.
  pose proof (blocks_length (List.length (SHA256.pad msg)) SHA256.H0 (SHA256.pad msg) eq_refl) as H.
  generalize dependent (SHA256.blocks (List.length (SHA256.pad msg)) SHA256.H0 (SHA256.pad msg)).
  intros st H.
  do 9 (destruct st as [|? st]; try discriminate H). reflexivity.
Qed.

Lemma sha256_length (msg : list byte) : List.length (SHA256.sha256 msg) = 32.
Proof. unfold SHA256.sha256. rewrite List.length_map. apply digest_length. Qed.

Lemma hmac_length (key msg : list byte) : List.length (SHA256.hmac key msg) = 32.
Proof. apply sha256_length. Qed.

(* ---- lastIndexOf ---- *)
Lemma lastIndexOf_range (l : list byte) (x : byte) :
  (-1 <= lastIndexOf l x < Z.of_nat (List.length l))%Z.
Proof.
  induction l as [|b l IH]; simpl; [lia|].
  destruct (0 <=? lastIndexOf l x)%Z eqn:E; [lia|].
  case_bool_decide; lia.
Qed.

Lemma lastIndexOf_absent (l : list byte) (x : byte) :
  lastIndexOf l x = (-1)%Z <-> ~ In x l.
Proof.
  induction l as [|b l IH]; simpl; [tauto|].
  pose proof (lastIndexOf_range l x).
  destruct (0 <=? lastIndexOf l x)%Z eqn:E.
  - split; [lia|]. intros Hn. exfalso. assert (lastIndexOf l x = (-1)%Z) by (apply IH; tauto). lia.
  - assert (lastIndexOf l x = (-1)%Z) as H1 by lia. apply IH in H1.
    case_bool_decide; split; try tauto; try lia.
Qed.

Lemma lastIndexOf_app (a b : list byte) (x : byte) :
  lastIndexOf (a ++ b) x =
  if (0 <=? lastIndexOf b x)%Z then (Z.of_nat (List.length a) + lastIndexOf b x)%Z
  else lastIndexOf a x.
Proof.
  induction a as [|c a IH]; simpl.
  - pose proof (lastIndexOf_range b x). destruct (0 <=? lastIndexOf b x)%Z eqn:E; lia.
  - rewrite IH. destruct (0 <=? lastIndexOf b x)%Z eqn:E.
    + assert ((0 <=? Z.of_nat (List.length a) + lastIndexOf b x)%Z = true) as -> by lia. lia.
    + done.
Qed.

(** The separator found in [payload ‖ separator ‖ mac]. *)
Lemma lastIndexOf_token (p mac : list byte) :
  lastIndexOf (p ++ separator :: mac) separator =
  (Z.of_nat (List.length p) +
   (if (0 <=? lastIndexOf mac separator) then lastIndexOf mac separator + 1 else 0))%Z.
Proof.
  rewrite lastIndexOf_app. cbn [lastIndexOf].
  pose proof (lastIndexOf_range mac separator).
  destruct (0 <=? lastIndexOf mac separator)%Z eqn:E.
  - assert ((0 <=? lastIndexOf mac separator + 1)%Z = true) as -> by lia. done.
  - rewrite bool_decide_eq_true_2 by done. simpl. done.
Qed.

(* ---- safeEqual ---- *)
Lemma safeEqual_spec (a b : bufstr) :
  safeEqual a b = Ok (bool_decide (to_buffer a = to_buffer b)).
Proof.
  unfold safeEqual, safeEqual_with, timingSafeEqual.
  destruct (List.length (to_buffer a) =? List.length (to_buffer b)) eqn:E; simpl; [done|].
  apply Nat.eqb_neq in E. rewrite bool_decide_eq_false_2; [done|]. congruence.
Qed.

(* ---- signing and verifying ---- *)
Lemma createHmac_digest_spec (key : jsval) (msg : string) :
  createHmac_digest key msg =
  match key_bytes key with
  | Some k => Ok (SHA256.hmac k (utf8 msg))
  | None => Throw TypeError
  end.
Proof. by destruct key. Qed.

Lemma createHmac_digest_length key msg mac :
  createHmac_digest key msg = Ok mac -> List.length mac = 32.
Proof.
  rewrite createHmac_digest_spec. destruct (key_bytes key); [|done].
  intros [= <-]. apply hmac_length.
Qed.

Lemma utf8_nonempty (s : string) : s <> EmptyString -> (0 < List.length (utf8 s))%nat.
Proof.
  destruct s as [|c s]; [done|]. intros _. unfold utf8, list_byte_of_string. simpl. lia.
Qed.

(** What the verification makes of a token that [signPayload] has made
    for a payload that is not empty: the round trip holds when the MAC
    has no byte equal to the separator, and fails when it has one. *)
Lemma signed_token_accepted (P : string) (key : jsval) (tok : string) (mac : list byte) :
  P <> EmptyString -> well_formed P ->
  createHmac_digest key P = Ok mac ->
  ~ In separator mac ->
  signPayload P key = Ok tok ->
  verifySignedToken (VStr tok) key =
  Verdict true (try_catch (JSON_parse P) (fun _ => JNull)).
Proof.
  intros Hne Hwf Hmac Hsep Hsign.
  unfold signPayload in Hsign. rewrite Hmac in Hsign.
  cbn [mbind result_bind app] in Hsign. injection Hsign as <-.
  unfold verifySignedToken. rewrite decode_encode. cbn [mbind result_bind].
  rewrite lastIndexOf_token.
  apply lastIndexOf_absent in Hsep. rewrite Hsep.
  cbn [Z.leb Z.compare]. rewrite Z.add_0_r.
  pose proof (utf8_nonempty P Hne).
  destruct (Z.of_nat (List.length (utf8 P)) <=? 0)%Z eqn:E; [lia|].
  rewrite Nat2Z.id.
  rewrite List.firstn_app, Nat.sub_diag, List.firstn_all. cbn [firstn]. rewrite List.app_nil_r.
  replace (Z.to_nat (Z.of_nat (List.length (utf8 P)) + 1)) with (List.length (utf8 P) + 1)%nat by lia.
  rewrite List.skipn_app, List.skipn_all2 by lia.
  replace (List.length (utf8 P) + 1 - List.length (utf8 P))%nat with 1%nat by lia.
  cbn [skipn app]. rewrite Hwf, Hmac. cbn [mbind result_bind].
  rewrite Nat.eqb_refl. cbn [negb].
  rewrite safeEqual_spec. cbn [mbind result_bind to_buffer].
  rewrite bool_decide_eq_true_2 by done. done.
Qed.

Lemma signed_token_rejected (P : string) (key : jsval) (tok : string) (mac : list byte) :
  createHmac_digest key P = Ok mac ->
  In separator mac ->
  signPayload P key = Ok tok ->
  verifySignedToken (VStr tok) key = Verdict false JNull.
Proof.
  intros Hmac Hsep Hsign.
  unfold signPayload in Hsign. rewrite Hmac in Hsign.
  cbn [mbind result_bind app] in Hsign. injection Hsign as <-.
  unfold verifySignedToken. rewrite decode_encode. cbn [mbind result_bind].
  rewrite lastIndexOf_token.
  pose proof (lastIndexOf_range mac separator) as Hr.
  destruct (0 <=? lastIndexOf mac separator)%Z eqn:E.
  2:{ exfalso. assert (lastIndexOf mac separator = (-1)%Z) as H1 by lia.
      apply lastIndexOf_absent in H1. done. }
  set (j := lastIndexOf mac separator) in *.
  destruct (Z.of_nat (List.length (utf8 P)) + (j + 1) <=? 0)%Z eqn:E2; [done|].
  pose proof (createHmac_digest_length _ _ _ Hmac) as Hlen.
  destruct (createHmac_digest key (toString_utf8 _)) as [expected|e] eqn:Hexp; [|done].
  cbn [mbind result_bind].
  apply createHmac_digest_length in Hexp.
  rewrite List.length_skipn, !List.length_app, Hexp. cbn [List.length].
  destruct (_ =? 32) eqn:E3; [|done].
  apply Nat.eqb_eq in E3. lia.
Qed.

(* ---- xor ---- *)
Lemma N_lxor_lt_256 (a b : N) : (a < 256)%N -> (b < 256)%N -> (N.lxor a b < 256)%N.
Proof.
  intros Ha Hb.
  destruct (N.eq_dec (N.lxor a b) 0%N) as [->|Hz]; [lia|].
  apply (N.log2_lt_pow2 _ 8%N); [lia|].
  eapply N.le_lt_trans; [apply N.log2_lxor|].
  apply N.max_lub_lt.
  - destruct (N.eq_dec a 0%N) as [->|?]; [done|]. apply N.log2_lt_pow2; lia.
  - destruct (N.eq_dec b 0%N) as [->|?]; [done|]. apply N.log2_lt_pow2; lia.
Qed.

Lemma to_N_byte_xor (a b : byte) :
  Byte.to_N (byte_xor a b) = N.lxor (Byte.to_N a) (Byte.to_N b).
Proof.
  unfold byte_xor, byte_of_N.
  pose proof (N_lxor_lt_256 _ _ (byte_to_N_lt a) (byte_to_N_lt b)) as H.
  rewrite N.mod_small by done.
  destruct (Byte.of_N _) as [x|] eqn:E.
  - by apply Byte.to_of_N.
  - apply Byte.of_N_None_iff in E. lia.
Qed.

Lemma byte_xor_cancel (a b : byte) : byte_xor a (byte_xor a b) = b.
Proof.
  apply byte_of_N_eq. rewrite to_N_byte_xor.
  by rewrite <- N.lxor_assoc, N.lxor_nilpotent, N.lxor_0_l.
Qed.

Lemma xor_bytes_cancel (pad secret : list byte) :
  List.length pad = List.length secret ->
  xor_bytes pad (xor_bytes pad secret) = secret.
Proof.
  revert secret. induction pad as [|p pad IH]; intros [|s secret] H; try done.
  unfold xor_bytes in *. cbn [combine List.map fst snd].
  rewrite byte_xor_cancel. f_equal. apply IH. simpl in H. lia.
Qed.

Lemma xor_bytes_length (a b : list byte) :
  List.length a = List.length b -> List.length (xor_bytes a b) = List.length a.
Proof.
  intros H. unfold xor_bytes. rewrite List.length_map, List.length_combine. lia.
Qed.

Lemma randomBytes_length (n : nat) (rng : entropy) :
  List.length (fst (randomBytes n rng)) = n.
Proof. unfold randomBytes. cbn [fst]. by rewrite List.length_map, List.length_seq. Qed.

(** C6. Mask round trip: whatever pad the random source gives at mint
    time, unmasking the masked token of a secret of one byte or more gives
    the secret back. *)
Theorem mask_roundtrip (secret : list byte) (rng : entropy) :
  secret <> [] ->
  unmaskToken (VStr (fst (makeMaskedToken secret rng))) = Ok secret.
Proof.
  intros Hne. unfold makeMaskedToken.
  pose proof (randomBytes_length (List.length secret) rng) as Hlen.
  destruct (randomBytes (List.length secret) rng) as [pad rng']. cbn [fst] in *.
  unfold unmaskToken. rewrite decode_encode. cbn [mbind result_bind].
  pose proof (xor_bytes_length pad secret Hlen) as Hx.
  rewrite List.length_app, Hx, Hlen.
  assert (0 < List.length secret) as Hpos by (destruct secret; [done|simpl; lia]).
  replace (List.length secret + List.length secret) with (2 * List.length secret) by lia.
  rewrite Nat.mul_comm, Nat.Div0.mod_mul, Nat.div_mul by lia.
  destruct (List.length secret * 2 =? 0) eqn:E; [apply Nat.eqb_eq in E; lia|].
  cbn [orb negb Nat.eqb].
  rewrite <- Hlen at 1. rewrite List.firstn_app, Nat.sub_diag, List.firstn_all.
  cbn [firstn]. rewrite List.app_nil_r.
  rewrite <- Hlen. rewrite List.skipn_app, Nat.sub_diag, List.skipn_all.
  change (drop 0 (xor_bytes pad secret)) with (xor_bytes pad secret). cbn [app]. by rewrite xor_bytes_cancel.
Qed.

Lemma mask_roundtrip_witness :
  unmaskToken (VStr (fst (makeMaskedToken [Byte.x00; Byte.xff; Byte.x2e] (fun i => byte_of_N (N.of_nat (37 * i + 11))))))
  = Ok [Byte.x00; Byte.xff; Byte.x2e].
Proof. apply mask_roundtrip. discriminate. Defined.

Lemma safeEqual_any_typed (primitive : list byte -> list byte -> result bool)
      (a b : bufstr) :
  safeEqual_any_with primitive (typed a) (typed b) =
  if negb (List.length (content a) =? List.length (content b)) then Ok false
  else primitive (content a) (content b).
Proof. by destruct a, b. Qed.

(** C10. [safeEqual] on inputs of its documented type, each a Buffer or
    a string, is total: it never throws, it answers true exactly when the
    two inputs have the same length and the same byte content (a string
    standing for its UTF-8 bytes), and on inputs of different lengths it
    answers false whatever the timing-safe primitive would do, so the
    primitive and its error on unequal lengths are not reached. The
    function of the engine, which only meets Buffers and strings, is this
    one. (On a number, null or undefined, [Buffer.from] throws.) *)
Theorem safeEqual_total (a b : bufstr) :
  safeEqual_any (typed a) (typed b) = Ok (bool_decide (content a = content b)) /\
  (safeEqual_any (typed a) (typed b) = Ok true <->
   List.length (content a) = List.length (content b) /\ content a = content b) /\
  (forall primitive : list byte -> list byte -> result bool,
     List.length (content a) <> List.length (content b) ->
     safeEqual_any_with primitive (typed a) (typed b) = Ok false) /\
  (forall primitive : list byte -> list byte -> result bool,
     List.length (content a) = List.length (content b) ->
     safeEqual_any_with primitive (typed a) (typed b) = primitive (content a) (content b)) /\
  (List.length (content a) = List.length (content b) ->
   timingSafeEqual (content a) (content b) <> Throw RangeError) /\
  (forall primitive : list byte -> list byte -> result bool,
     safeEqual_with primitive a b = safeEqual_any_with primitive (typed a) (typed b)).
Proof.
  assert (safeEqual_any (typed a) (typed b) = Ok (bool_decide (content a = content b))) as Hspec.
  { unfold safeEqual_any. rewrite safeEqual_any_typed. unfold timingSafeEqual.
    destruct (List.length (content a) =? List.length (content b)) eqn:E; cbn [negb]; [done|].
    apply Nat.eqb_neq in E. rewrite bool_decide_eq_false_2; [done|]. congruence. }
  split; [exact Hspec|]. split.
  { rewrite Hspec. split.
    - intros [= H]. apply bool_decide_eq_true_1 in H. by rewrite H.
    - intros [_ H]. by rewrite bool_decide_eq_true_2. }
  split.
  { intros primitive H. rewrite safeEqual_any_typed.
    apply Nat.eqb_neq in H. by rewrite H. }
  split.
  { intros primitive H. rewrite safeEqual_any_typed.
    apply Nat.eqb_eq in H. by rewrite H. }
  split.
  { intros H. unfold timingSafeEqual. apply Nat.eqb_eq in H. by rewrite H. }
  intros primitive. rewrite safeEqual_any_typed. by destruct a, b.
Qed.

Lemma safeEqual_total_witness :
  safeEqual_any (AStr "hello") (AStr "world") = Ok false /\
  safeEqual_any (AStr "hello") (ABuf [Byte.x68; Byte.x65; Byte.x6c; Byte.x6c; Byte.x6f])
  = Ok true /\
  safeEqual (Str "hello") (Str "world") = Ok false /\
  safeEqual (Buf [Byte.x68; Byte.x65; Byte.x6c; Byte.x6c; Byte.x6f]) (Str "hello") = Ok true /\
  safeEqual_any_with (fun _ _ => Throw RangeError) (AStr "hello") (ABuf [Byte.x68; Byte.x69])
  = Ok false.
Proof.
  split; [exact (proj1 (safeEqual_total (Str "hello") (Str "world")))|].
  split; [exact (proj1 (safeEqual_total
                          (Str "hello")
                          (Buf [Byte.x68; Byte.x65; Byte.x6c; Byte.x6c; Byte.x6f])))|].
  split.
  { destruct (safeEqual_total (Str "hello") (Str "world")) as (H1 & _ & _ & _ & _ & H6).
    unfold safeEqual. rewrite H6. exact H1. }
  split.
  { destruct (safeEqual_total (Buf [Byte.x68; Byte.x65; Byte.x6c; Byte.x6c; Byte.x6f])
                (Str "hello")) as (H1 & _ & _ & _ & _ & H6).
    unfold safeEqual. rewrite H6. exact H1. }
  destruct (safeEqual_total (Str "hello") (Buf [Byte.x68; Byte.x69])) as (_ & _ & H3 & _).
  apply H3. vm_compute. lia.
Defined.

(** Outside the documented type the function is not total: on a number
    and on null the conversion throws. *)
Lemma safeEqual_raises_on_number :
  safeEqual_any (ANumber 42) (AStr "42") = Throw TypeError /\
  safeEqual_any (ABuf []) ANull = Throw TypeError.
Proof. split; reflexivity. Qed.

Lemma verified_token_truthy (token key : jsval) :
  ok (verifySignedToken token key) = true -> truthy token = true.
Proof.
  destruct token as [s|b|t]; [|done|done].
  destruct s as [|c s]; [|done]. vm_compute. done.
Qed.

(** The procedure without its exceptions: one comparison of the MAC. *)
Lemma verifySignedToken_cases (tokenStr key : jsval) :
  verifySignedToken tokenStr key =
  match decode tokenStr with
  | Throw _ => Verdict false JNull
  | Ok raw =>
      let dotIdx := lastIndexOf raw separator in
      let payloadStr := toString_utf8 (List.firstn (Z.to_nat dotIdx) raw) in
      let macBuf := List.skipn (Z.to_nat (dotIdx + 1)) raw in
      if (dotIdx <=? 0)%Z then Verdict false JNull
      else
        match createHmac_digest key payloadStr with
        | Throw _ => Verdict false JNull
        | Ok expected =>
            if bool_decide (macBuf = expected)
            then Verdict true (try_catch (JSON_parse payloadStr) (fun _ => JNull))
            else Verdict false JNull
        end
  end.
Proof.
  unfold verifySignedToken.
  destruct (decode tokenStr) as [raw|e0]; cbn [mbind result_bind try_catch]; [|done].
  cbv zeta. destruct (lastIndexOf raw separator <=? 0)%Z; [done|].
  destruct (createHmac_digest key _) as [expected|e1]; cbn [mbind result_bind]; [|done].
  rewrite safeEqual_spec. cbn [to_buffer mbind result_bind].
  destruct (List.length _ =? List.length expected) eqn:Hlen; cbn [negb].
  - by case_bool_decide.
  - rewrite bool_decide_eq_false_2; [done|].
    intros H. rewrite H, Nat.eqb_refl in Hlen. done.
Qed.

(** C4. [verifySignedToken] returns in every case, and what it returns:
    not ok with a null payload when the text cannot be decoded, when the
    separator is missing or leads, when the MAC cannot be computed, when
    the MAC has another length or another value; ok with the parsed
    payload when the MAC matches, and ok with a null payload when the MAC
    matches and the payload is not JSON. *)
Theorem verifySignedToken_never_raises (tokenStr key : jsval) :
  let v := verifySignedToken tokenStr key in
  (forall e, decode tokenStr = Throw e -> v = Verdict false JNull) /\
  (forall raw, decode tokenStr = Ok raw ->
     let dotIdx := lastIndexOf raw separator in
     let payloadStr := toString_utf8 (List.firstn (Z.to_nat dotIdx) raw) in
     let macBuf := List.skipn (Z.to_nat (dotIdx + 1)) raw in
     ((dotIdx <= 0)%Z -> v = Verdict false JNull) /\
     (forall e, (0 < dotIdx)%Z -> createHmac_digest key payloadStr = Throw e ->
        v = Verdict false JNull) /\
     (forall expected, (0 < dotIdx)%Z -> createHmac_digest key payloadStr = Ok expected ->
        (List.length macBuf <> List.length expected -> v = Verdict false JNull) /\
        (macBuf <> expected -> v = Verdict false JNull) /\
        (macBuf = expected ->
           (forall e, JSON_parse payloadStr = Throw e -> v = Verdict true JNull) /\
           (forall j, JSON_parse payloadStr = Ok j -> v = Verdict true j)))) /\
  (ok v = false -> payload v = JNull).
Proof.
  intros v. subst v. rewrite verifySignedToken_cases.
  destruct (decode tokenStr) as [raw|e0]; [|done].
  split; [done|]. cbv zeta.
  set (dotIdx := lastIndexOf raw separator).
  set (payloadStr := toString_utf8 _).
  set (macBuf := List.skipn _ raw).
  destruct (dotIdx <=? 0)%Z eqn:Hdot.
  { split; [|done]. intros ? [= <-]. fold dotIdx payloadStr macBuf.
    split; [done|]. split; intros; lia. }
  destruct (createHmac_digest key payloadStr) as [expected|e1] eqn:Hmac.
  2:{ split; [|done]. intros ? [= <-]. fold dotIdx payloadStr macBuf.
      split; [done|]. split; [done|]. intros expected _ H. congruence. }
  case_bool_decide as Heq.
  - split; [|done]. intros ? [= <-]. fold dotIdx payloadStr macBuf.
    split; [lia|]. split; [intros; congruence|].
    intros expected' _ H. assert (expected' = expected) as -> by congruence.
    split; [intros Hl; by rewrite Heq in Hl|]. split; [done|]. intros _.
    destruct (JSON_parse payloadStr); split; intros; cbn [try_catch]; congruence.
  - split; [|done]. intros ? [= <-]. fold dotIdx payloadStr macBuf.
    split; [lia|]. split; [intros; congruence|].
    intros expected' _ H. assert (expected' = expected) as -> by congruence.
    split; [done|]. split; [done|]. done.
Qed.


(* ---- the store ---- *)
(** Read before the expiry of the entry just stored, with no timer run
    in between: the value. *)
Lemma get_after_set (now now' : Z) (k v : string) (ttlSec : Z) (m : memory) :
  (ttlSec = 0 \/ now' <= now + ttlSec * 1000)%Z ->
  mem_get now' k (mem_set now k v ttlSec m) = (Some v, mem_set now k v ttlSec m).
Proof.
  intros H. unfold mem_get, mem_set. cbn [map]. rewrite lookup_insert_eq. cbn [exp val].
  destruct (ttlSec =? 0)%Z eqn:E; [done|].
  assert ((now' >? now + ttlSec * 1000)%Z = false) as -> by lia.
  by rewrite andb_false_r.
Qed.

(** Read after the expiry: nothing, and the entry is gone. *)
Lemma get_after_expiry (now now' : Z) (k v : string) (ttlSec : Z) (m : memory) :
  (ttlSec <> 0)%Z -> (now + ttlSec * 1000 <> 0)%Z -> (now + ttlSec * 1000 < now')%Z ->
  fst (mem_get now' k (mem_set now k v ttlSec m)) = None /\
  map (snd (mem_get now' k (mem_set now k v ttlSec m))) !! k = None.
Proof.
  intros Ht Hx Hlate. unfold mem_get, mem_set. cbn [map]. rewrite lookup_insert_eq.
  cbn [exp val]. destruct (ttlSec =? 0)%Z eqn:E; [lia|].
  assert ((now' >? now + ttlSec * 1000)%Z = true) as -> by lia.
  assert ((now + ttlSec * 1000 =? 0)%Z = false) as -> by lia.
  cbn [negb andb fst snd map]. split; [done|]. apply lookup_delete_eq.
Qed.

(** A timer only deletes: what the map holds after the timers have run,
    it held before. *)
Lemma run_timers_only_removes (now : Z) (m : memory) (k : string) (e : entry) :
  map (run_timers now m) !! k = Some e -> map m !! k = Some e.
Proof.
  unfold run_timers. cbn [map]. generalize (map m). clear.
  induction (timers m) as [|t ts IH]; intros mp; [done|].
  cbn [List.fold_left]. intros H. apply IH in H.
  destruct (is_due now t); [|done].
  destruct (decide (target t = k)) as [Heq|Hne].
  - rewrite Heq in H. by rewrite lookup_delete_eq in H.
  - by rewrite lookup_delete_ne in H.
Qed.
Lemma timers_keep_absent (now : Z) (ts : list timer) (mp : gmap string entry) (k : string) :
  mp !! k = None ->
  List.fold_left (fun mp t => if is_due now t then delete (target t) mp else mp) ts mp !! k
  = None.
Proof.
  revert mp. induction ts as [|t ts IH]; intros mp H; [done|].
  cbn [List.fold_left]. apply IH. destruct (is_due now t); [|done].
  destruct (decide (target t = k)) as [Heq|Hne].
  - rewrite Heq. apply lookup_delete_eq.
  - by rewrite lookup_delete_ne.
Qed.

(** A timer that is due removes the entry of its key, whichever [set]
    has stored that entry and whatever its expiry is. *)
Lemma due_timer_removes (now : Z) (m : memory) (t : timer) :
  In t (timers m) -> is_due now t = true ->
  map (run_timers now m) !! target t = None.
Proof.
  unfold run_timers. cbn [map]. generalize (map m).
  induction (timers m) as [|t' ts IH]; intros mp Hin Hdue; [done|].
  cbn [List.fold_left]. destruct Hin as [->|Hin].
  - rewrite Hdue. apply timers_keep_absent, lookup_delete_eq.
  - by apply IH.
Qed.

(** After [set(k, v1, ttl1)] and a later [set(k, v2, ttl2)], once the
    timer of the first [set] has run, [get(k)] finds nothing, whatever
    [ttl2] is (the times of a run do not decrease). *)
Lemma stale_timer_general (t0 t1 t2 t3 : Z) (k v1 v2 : string) (ttl1 ttl2 : Z) (m : memory) :
  (ttl1 <> 0)%Z ->
  (t0 + timeout_delay (ttl1 * 1000 + 100) <= t2)%Z ->
  fst (store_run [(t0, OSet k v1 ttl1); (t1, OSet k v2 ttl2); (t2, OTimers); (t3, OGet k)] m)
  = None.
Proof.
  intros Httl Hdue. cbn [store_run store_step snd].
  set (m2 := mem_set t1 k v2 ttl2 (mem_set t0 k v1 ttl1 m)).
  pose (t := Timer (t0 + timeout_delay (ttl1 * 1000 + 100))%Z k).
  assert (In t (timers m2)) as Hin.
  { unfold m2, mem_set. cbn [timers]. apply Z.eqb_neq in Httl. rewrite Httl.
    destruct (ttl2 =? 0)%Z; rewrite ?List.in_app_iff; cbn [In]; tauto. }
  assert (is_due t2 t = true) as Ht by (unfold is_due, t; cbn [due]; lia).
  pose proof (due_timer_removes t2 m2 t Hin Ht) as Hgone. cbn [target t] in Hgone.
  unfold mem_get. by rewrite Hgone.
Qed.

Section EngineProperties.
Context (P : platform) {W : Type}.
Context (default_get : Z -> string -> W -> result (option string) * W).
Context (default_set : Z -> string -> string -> Z -> W -> result unit * W).
Context (default_del : Z -> string -> W -> result unit * W).

Lemma no_store_get_usable (opts : options W) :
  no_store_get opts = false <-> usable_store opts.
Proof.
  unfold no_store_get, usable_store. destruct (store opts) as [s|].
  - destruct (st_get s) as [g|] eqn:E; simpl.
    + split; [|done]. intros _. by exists s, g.
    + split; [done|]. intros (s' & g & [= <-] & H). congruence.
  - split; [done|]. by intros (s & g & H & _).
Qed.

(** C8. [createMiddleware] throws, at construction, exactly when the
    merged configuration is contradictory: stateful mode with no store
    that has a [get] method, or stateless mode with no key. Otherwise it
    returns the bundle, whose functions close over a configuration that
    is not contradictory. *)
Theorem createMiddleware_fails_fast (userOpts : user_options W) :
  let opts := assign (DEFAULTS default_get default_set default_del) userOpts in
  let made := createMiddleware default_get default_set default_del userOpts in
  (contradictory opts <-> exists e, made = Throw e) /\
  (~ contradictory opts <-> made = Ok (Bundle opts)) /\
  (forall b, made = Ok b -> captured b = opts /\ ~ contradictory (captured b)).
Proof.
  intros opts made. subst made. unfold createMiddleware.
  generalize dependent (assign (DEFAULTS default_get default_set default_del) userOpts).
  clear userOpts. intros opts.
  unfold contradictory.
  pose proof (no_store_get_usable opts) as Hu.
  destruct (stateless opts) eqn:Hs; cbn [negb andb].
  - destruct (truthy (statelessKey opts)) eqn:Hk; cbn [negb].
    + split; [|split].
      * split; [intros [[? _]|[_ ?]]; congruence | intros [e ?]; discriminate].
      * split; [done|]. intros _ [[? _]|[_ ?]]; congruence.
      * intros b [= <-]. cbn [captured]. split; [done|]. intros [[? _]|[_ ?]]; congruence.
    + split; [|split].
      * split; [eauto | intros _; right; done].
      * split; [intros H; exfalso; apply H; right; done | congruence].
      * congruence.
  - destruct (no_store_get opts) eqn:Hn.
    + assert (~ usable_store opts) as Hnu by (intros H; apply Hu in H; congruence).
      split; [|split].
      * split; [eauto | intros _; left; done].
      * split; [intros H; exfalso; apply H; left; done | congruence].
      * congruence.
    + assert (usable_store opts) as Hyes by (by apply Hu).
      split; [|split].
      * split; [intros [[_ ?]|[? _]]; [done|congruence] | intros [e ?]; discriminate].
      * split; [done|]. intros _ [[_ ?]|[? _]]; [done|congruence].
      * intros b [= <-]. cbn [captured]. split; [done|]. intros [[_ ?]|[? _]]; [done|congruence].
Qed.

(** The expiry test on a payload whose [exp] is an integer: a zero is
    no expiry. *)
Lemma expired_integer (now e : Z) (members : list (string * json)) :
  get_member (JObject members) "exp" = Some (JInt e) ->
  expired P now (JObject members) = (negb (e =? 0) && (now >? e))%Z.
Proof. intros H. unfold expired. rewrite H. reflexivity. Qed.

(** C9. With the origin check on, a request whose method is not exempt
    and that has neither an Origin nor a Referer header is refused with
    status 403 and the origin mismatch text, whatever token it carries and
    whatever the mode and the stores are. *)
Theorem no_origin_no_referer_refused (opts : options W) (now : Z) (req : request) (w : W) :
  originCheck opts = true ->
  includes (allowedMethods opts) (method req) = false ->
  header req "origin" = None ->
  header req "referer" = None ->
  verify P opts now req w = (Send 403 "CSRF: origin/referrer mismatch.", w).
Proof.
  intros Hcheck Hmethod Horigin Hreferer.
  unfold verify. rewrite Hmethod, Hcheck.
  unfold origin_ok. rewrite Horigin, Hreferer. done.
Qed.

(** C2, as the code has it. In stateless mode a token whose signature
    is valid and whose payload is null has no expiry to check: once the
    origin check is passed the request is accepted, and the next handler
    runs. *)
Theorem null_payload_accepted (opts : options W) (now : Z) (req : request) (w : W) :
  stateless opts = true ->
  (originCheck opts = true -> origin_ok P req = true) ->
  verifySignedToken (extract_token opts req) (statelessKey opts) = Verdict true JNull ->
  verify P opts now req w = (Next, w).
Proof.
  intros Hmode Horigin Hv. unfold verify.
  destruct (includes _ _); [done|].
  destruct (originCheck opts) eqn:Hc; cbn [andb].
  - rewrite Horigin by done. cbn [negb].
    rewrite (verified_token_truthy _ (statelessKey opts)) by (by rewrite Hv).
    cbn [negb]. rewrite Hmode, Hv. done.
  - rewrite (verified_token_truthy _ (statelessKey opts)) by (by rewrite Hv).
    cbn [negb]. rewrite Hmode, Hv. done.
Qed.
End EngineProperties.

(* ================================================================== *)
(** ** The statements at concrete inputs *)

(** Each part of a conjunction of closed equations, by evaluation. *)
Ltac evaluate :=
  cbv zeta;
  repeat match goal with |- _ /\ _ => split end;
  vm_compute; reflexivity.

(** The hash and the MAC on the vectors of FIPS 180-4 and of RFC 4231
    (test cases 2 and 6). *)
Example sha256_abc :
  hex (SHA256.sha256 (utf8 "abc"))
  = "ba7816bf8f01cfea414140de5dae2223b00361a396177a9cb410ff61f20015ad".
Proof. evaluate. Qed.

Example hmac_rfc4231_case_2 :
  hex (SHA256.hmac (utf8 "Jefe") (utf8 "what do ya want for nothing?"))
  = "5bdcc146bf60754e6a042426089575c75a003f089d2739839dec58b964ec3843".
Proof. evaluate. Qed.

Example hmac_rfc4231_case_6 :
  hex (SHA256.hmac (List.repeat Byte.xaa 131)
         (utf8 "Test Using Larger Than Block-Size Key - Hash Key First"))
  = "60e431591ee0b67f0d8a26aacbf5b77f8e0bc6213728c5140546040f0ee37f54".
Proof. evaluate. Qed.

(** The text codec on the bytes that need the two URL-safe characters,
    and [toString('utf8')] on ill-formed bytes. *)
Example encode_url_characters :
  encode [Byte.xfb; Byte.xff; Byte.xfe] = "-__-" /\ encode (utf8 "ab") = "YWI".
Proof. evaluate. Qed.

Example JSON_parse_values :
  JSON_parse "[[[[[[[[[[[[[[[[1]]]]]]]]]]]]]]]]"
  = Ok (JArray [JArray [JArray [JArray [JArray [JArray [JArray [JArray [JArray [JArray
         [JArray [JArray [JArray [JArray [JArray [JArray [JInt 1]]]]]]]]]]]]]]]]) /\
  JSON_parse " [1, 2.5e+3, -0, true, null] "
  = Ok (JArray [JInt 1; JNumber "2.5e+3"; JInt 0; JBool true; JNull]) /\
  JSON_parse "01" = Throw SyntaxError /\
  JSON_parse "[1,]" = Throw SyntaxError /\
  JSON_parse EmptyString = Throw SyntaxError.
Proof. evaluate. Qed.

Example toString_utf8_replaces :
  toString_utf8 [Byte.xc0; Byte.x80] = replacement +:+ replacement /\
  toString_utf8 [Byte.xe2; Byte.x82; Byte.x41] = replacement +:+ "A" /\
  toString_utf8 [Byte.xe2; Byte.x82; Byte.xac] = utf8_encode 0x20AC.
Proof. evaluate. Qed.

(** C1. The round trip breaks on a MAC that holds the separator byte.
    The payload is the one of the repository's test with
    [iat = 1700000000007], signed with the key of that test: its MAC has
    the byte 0x2E, [lastIndexOf] finds that byte and not the separator,
    and the token that [signPayload] has just made is refused, while the
    payload parses to an object. *)
Theorem separator_in_mac_breaks_roundtrip :
  let P := "{" +:+ quoted "foo" +:+ ":" +:+ quoted "bar" +:+ ","
               +:+ quoted "iat" +:+ ":1700000000007}" in
  let K := VStr "test-signing-key-12345" in
  let token :=
    "eyJmb28iOiJiYXIiLCJpYXQiOjE3MDAwMDAwMDAwMDd9LjEv21Zb8Bp_9mpvYgNbtYGrui7C084iMjGMc0WMluVv" in
  signPayload P K = Ok token /\
  (exists mac, createHmac_digest K P = Ok mac /\ In separator mac) /\
  JSON_parse P = Ok (JObject [("foo", JString "bar"); ("iat", JInt 1700000000007)]) /\
  verifySignedToken (VStr token) K = Verdict false JNull.
Proof.
  cbv zeta. split; [by vm_compute|]. split.
  - eexists. split; [by vm_compute|]. vm_compute. tauto.
  - split; by vm_compute.
Qed.

(** C2, as the claim has it, fails: the token signs the text
    [not json], its signature is valid and its payload is null, and the
    request that carries it is accepted. *)
Lemma unparseable_payload_accepted :
  let key := VStr "test-stateless-key-xxx" in
  let token := "bm90IGpzb24uyCqUszH2aDHdMnB_1-CH-OjJJ4hR8-axLfNw67607zM" in
  let opts := assign (DEFAULTS memory_get memory_set memory_del) (stateless_options (Some false) key) in
  let req := bare_request "POST" [("x-csrf-plus", token)] in
  signPayload "not json" key = Ok token /\
  JSON_parse "not json" = Throw SyntaxError /\
  verifySignedToken (VStr token) key = Verdict true JNull /\
  createMiddleware memory_get memory_set memory_del (stateless_options (Some false) key) = Ok (Bundle opts) /\
  verify no_platform opts 1700000000000 req createMemoryStore = (Next, createMemoryStore).
Proof.
  evaluate.
Qed.

Lemma null_payload_accepted_witness :
  verify no_platform
    (assign (DEFAULTS memory_get memory_set memory_del)
       (stateless_options (Some false) (VStr "test-stateless-key-xxx")))
    1700000000000
    (bare_request "POST"
       [("x-csrf-plus", "bm90IGpzb24uyCqUszH2aDHdMnB_1-CH-OjJJ4hR8-axLfNw67607zM")])
    createMemoryStore
  = (Next, createMemoryStore).
Proof.
  apply null_payload_accepted.
  - reflexivity.
  - intros H. vm_compute in H. discriminate H.
  - vm_compute. reflexivity.
Defined.

(** C3. A timer of an earlier [set] removes the entry of a later one.
    [set(k, a, 1)] at time 0 schedules a cleanup for time 1100;
    [set(k, b, 0)] at time 500 stores a value that never expires; the
    cleanup runs, and [get(k)] at time 2000 finds nothing. Without the
    first [set] the same [get] returns the value. The same happens to a
    value stored for 60 seconds. *)
Theorem stale_timer_removes_fresh_entry :
  fst (store_run [(0, OSet "k" "a" 1); (500, OSet "k" "b" 0);
                  (1100, OTimers); (2000, OGet "k")]%Z createMemoryStore) = None /\
  fst (store_run [(500, OSet "k" "b" 0);
                  (1100, OTimers); (2000, OGet "k")]%Z createMemoryStore) = Some "b" /\
  fst (store_run [(0, OSet "k" "a" 1); (500, OSet "k" "b" 60);
                  (1100, OTimers); (2000, OGet "k")]%Z createMemoryStore) = None.
Proof. evaluate. Qed.

(** A delay that does not fit in 31 bits is set to one millisecond: a
    value stored for 2147484 seconds is removed at once. *)
Example long_ttl_removed_at_once :
  fst (store_run [(0, OSet "k" "a" 2147484); (2, OTimers); (1000, OGet "k")]%Z
         createMemoryStore) = None.
Proof. evaluate. Qed.

(** The two tests of the repository on the store. *)
Example store_basic_behaviour :
  fst (store_run [(0, OSet "k1" "v1" 0); (1, OGet "k1")]%Z createMemoryStore) = Some "v1" /\
  fst (store_run [(0, OSet "k1" "v1" 0); (1, ODel "k1"); (2, OGet "k1")]%Z createMemoryStore)
  = None.
Proof. evaluate. Qed.

Example store_ttl_expiration :
  fst (store_run [(0, OSet "ttlkey" "val" 1); (1, OGet "ttlkey")]%Z createMemoryStore)
  = Some "val" /\
  fst (store_run [(0, OSet "ttlkey" "val" 1); (1100, OTimers); (1101, OGet "ttlkey")]%Z
         createMemoryStore) = None /\
  fst (store_run [(0, OSet "ttlkey" "val" 1); (1101, OGet "ttlkey")]%Z createMemoryStore)
  = None.
Proof. evaluate. Qed.

(** C5. A token whose time to live is the negative of the time of its
    creation has [exp = 0 < iat]; the engine reads [payload.exp] as
    absent and accepts the token, at its creation and at any time. *)
Theorem expiry_at_epoch_accepted (P : platform) (later : Z) :
  let key := VStr "test-stateless-key-xxx" in
  let now := 1700000000000%Z in
  let token :=
    "eyJpYXQiOjE3MDAwMDAwMDAwMDAsImV4cCI6MH0uO23-TwMKv8ASPga2s-vuydV_x2cm7Fr1EDv51y8mv2c" in
  let opts := assign (DEFAULTS memory_get memory_set memory_del) (stateless_options (Some false) key) in
  let req := bare_request "POST" [("x-csrf-plus", token)] in
  createStatelessToken now (- now) key = Ok token /\
  verifySignedToken (VStr token) key
  = Verdict true (JObject [("iat", JInt now); ("exp", JInt 0)]) /\
  verify P opts now req createMemoryStore = (Next, createMemoryStore) /\
  verify P opts later req createMemoryStore = (Next, createMemoryStore).
Proof.
  evaluate.
Qed.

(** A token made with [ttlMs = -1000] whose MAC holds the separator
    byte is refused as invalid, not as expired. *)
Example expired_token_refused_as_invalid (P : platform) :
  let key := VStr "test-stateless-key-xxx" in
  let now := 1700000000010%Z in
  let token :=
    "eyJpYXQiOjE3MDAwMDAwMDAwMTAsImV4cCI6MTY5OTk5OTk5OTAxMH0uKdKcX4ShhD4Dny52AVdwrJaVLwjZKT4pEidRTSPEpMc" in
  let opts := assign (DEFAULTS memory_get memory_set memory_del) (stateless_options (Some false) key) in
  let req := bare_request "POST" [("x-csrf-plus", token)] in
  createStatelessToken now (-1000) key = Ok token /\
  verify P opts now req createMemoryStore = (Send 403 "CSRF token invalid.", createMemoryStore).
Proof.
  evaluate.
Qed.

(** The expiry test of the repository: [ttlMs = -1000] at a time when
    the MAC has no separator byte is refused as expired. *)
Example expired_token_refused (P : platform) :
  let key := VStr "test-stateless-key-xxx" in
  let now := 1700000000000%Z in
  let token :=
    "eyJpYXQiOjE3MDAwMDAwMDAwMDAsImV4cCI6MTY5OTk5OTk5OTAwMH0uV2lc3f93DyMfv7CdXTf3t_9pcjEhqg88ewSPzZXgiSY" in
  let opts := assign (DEFAULTS memory_get memory_set memory_del) (stateless_options (Some false) key) in
  let req := bare_request "POST" [("x-csrf-plus", token)] in
  createStatelessToken now (-1000) key = Ok token /\
  verify P opts now req createMemoryStore = (Send 403 "CSRF token expired.", createMemoryStore).
Proof.
  evaluate.
Qed.

(** A secret of no byte at all makes the empty token, which does not
    unmask: the round trip needs one byte or more. *)
Example empty_secret_is_malformed (rng : entropy) :
  unmaskToken (VStr (fst (makeMaskedToken [] rng))) = Throw MalformedToken.
Proof. evaluate. Qed.

(** The test of the repository on a token that is too short. *)
Example unmask_short_token : unmaskToken (VStr "AA") = Throw MalformedToken.
Proof. evaluate. Qed.

Lemma verifySignedToken_never_raises_witness :
  verifySignedToken (VStr "bm90IGpzb24uyCqUszH2aDHdMnB_1-CH-OjJJ4hR8-axLfNw67607zM")
                    (VStr "test-stateless-key-xxx")
  = Verdict true JNull.
Proof.
  pose proof (verifySignedToken_never_raises
                (VStr "bm90IGpzb24uyCqUszH2aDHdMnB_1-CH-OjJJ4hR8-axLfNw67607zM")
                (VStr "test-stateless-key-xxx")) as H.
  cbv zeta in H. destruct H as (_ & H & _).
  destruct (H _ eq_refl) as (_ & _ & H3).
  destruct (H3 (SHA256.hmac (utf8 "test-stateless-key-xxx") (utf8 "not json")))
    as (_ & _ & H4).
  - vm_compute. reflexivity.
  - vm_compute. reflexivity.
  - destruct H4 as [H5 _]; [vm_compute; reflexivity|].
    apply (H5 SyntaxError). vm_compute. reflexivity.
Defined.

Lemma createMiddleware_fails_fast_witness :
  createMiddleware memory_get memory_set memory_del no_options
  = Ok (Bundle (assign (DEFAULTS memory_get memory_set memory_del) no_options)) /\
  exists e, createMiddleware memory_get memory_set memory_del
              (stateless_options None (VStr EmptyString)) = Throw e.
Proof.
  split.
  - apply createMiddleware_fails_fast.
    intros [[_ H]|[H _]]; [|discriminate H].
    apply H. eexists _, _. split; reflexivity.
  - apply createMiddleware_fails_fast. right. split; reflexivity.
Defined.

Lemma no_origin_no_referer_refused_witness :
  let key := VStr "test-stateless-key-xxx" in
  let now := 1700000000000%Z in
  let token :=
    "eyJpYXQiOjE3MDAwMDAwMDAwMDAsImV4cCI6MTcwMDAwMzYwMDAwMH0ukFk-nFN30IzMDco6qUB-n38MV_Zf83JBncdfe601Z30" in
  let req := bare_request "POST" [("x-csrf-plus", token)] in
  createStatelessToken now 3600000 key = Ok token /\
  verify no_platform
    (assign (DEFAULTS memory_get memory_set memory_del) (stateless_options (Some false) key))
    now req createMemoryStore
  = (Next, createMemoryStore) /\
  verify no_platform
    (assign (DEFAULTS memory_get memory_set memory_del) (stateless_options None key))
    now req createMemoryStore
  = (Send 403 "CSRF: origin/referrer mismatch.", createMemoryStore).
Proof.
  cbv zeta. split; [vm_compute; reflexivity|]. split; [vm_compute; reflexivity|].
  apply no_origin_no_referer_refused; reflexivity.
Defined.

(* ================================================================== *)
(** * Further properties of the code *)

(* ---- the payload of a stateless token, written and read ---- *)
Lemma digit_char_spec (k : Z) :
  (0 <= k < 10)%Z ->
  is_digit (digit_char k) = true /\
  (Z.of_N (N_of_ascii (digit_char k)) - 48)%Z = k /\
  (k <> 0%Z -> digit_char k <> "0"%char).
Proof.
  intros H.
  assert (k = 0 \/ k = 1 \/ k = 2 \/ k = 3 \/ k = 4 \/ k = 5 \/ k = 6 \/ k = 7 \/ k = 8 \/ k = 9)%Z
    as Hk by lia.
  repeat destruct Hk as [->|Hk]; try subst k; vm_compute; (split; [done|]; split; [done|]);
    intros Hz; try done; discriminate.
Qed.


Lemma decimal_value_append (a : Z) (d s : string) :
  decimal_value a (d +:+ s) = decimal_value (decimal_value a d) s.
Proof.
  revert a. induction d as [|c d IH]; intros a; [done|].
  rewrite append_String. cbn [decimal_value]. apply IH.
Qed.

Lemma pos_digits_writes (fuel : nat) (n : Z) (acc : string) :
  (0 <= n)%Z -> (Z.log2 n < Z.of_nat fuel)%Z ->
  exists d, pos_digits fuel n acc = d +:+ acc /\ writes d n.
Proof.
  revert n acc. induction fuel as [|fuel IH]; intros n acc Hn Hf.
  { pose proof (Z.log2_nonneg n). lia. }
  cbn [pos_digits]. fold (digit_char (n mod 10)).
  pose proof (Z.mod_pos_bound n 10 eq_refl) as Hb.
  destruct (digit_char_spec (n mod 10)) as (Hd & Hv & Hz); [lia|].
  destruct (n <? 10)%Z eqn:E.
  - exists (String (digit_char (n mod 10)) EmptyString). split; [done|].
    assert (n mod 10 = n)%Z as Hm by (apply Z.mod_small; lia).
    split; [cbn [string_forall]; by rewrite Hd|]. split.
    + cbn [decimal_value]. lia.
    + intros Hne. apply Hz. lia.
  - assert (0 < n / 10)%Z as Hq by (apply Z.div_str_pos; lia).
    destruct (IH (n / 10)%Z (String (digit_char (n mod 10)) acc)) as (d & Hp & Hall & Hval & Hlead).
    + lia.
    + assert (Z.log2 (n / 10) <= Z.log2 (n / 2))%Z.
      { apply Z.log2_le_mono. apply Z.div_le_compat_l; lia. }
      assert (Z.log2 (n / 2) = Z.log2 n - 1)%Z.
      { assert (1 <= Z.log2 n)%Z by (change 1%Z with (Z.log2 2); apply Z.log2_le_mono; lia).
        rewrite <- Z.div2_div, Z.div2_spec, Z.log2_shiftr by lia. lia. }
      lia.
    + exists (d +:+ String (digit_char (n mod 10)) EmptyString).
      split; [by rewrite Hp, append_assoc|].
      split; [rewrite string_forall_append, Hall; cbn [string_forall]; by rewrite Hd|].
      split.
      * rewrite decimal_value_append, Hval. cbn [decimal_value]. rewrite Hv.
        pose proof (Z.div_mod n 10). lia.
      * destruct d as [|c d]; [done|]. rewrite append_String. intros _. apply Hlead. lia.
Qed.

Lemma append_Empty_r (s : string) : s +:+ EmptyString = s.
Proof. induction s as [|c s IH]; [done|]. by rewrite append_String, IH. Qed.

Lemma span_digits_append (d : string) (c : ascii) (rest : string) :
  string_forall is_digit d = true -> is_digit c = false ->
  span_digits (d +:+ String c rest) = (d, String c rest).
Proof.
  intros Hd Hc. induction d as [|c0 d IH].
  - rewrite append_Empty. cbn [span_digits]. by rewrite Hc.
  - rewrite append_String. cbn [span_digits]. cbn [string_forall] in Hd.
    apply andb_prop in Hd as [H0 Hd]. by rewrite H0, IH.
Qed.

(** The two characters that follow a number in the text of the payload. *)

Ltac by_bits c :=
  destruct c as [[] [] [] [] [] [] [] []].

Lemma parse_value_number_led (fuel : nat) (c0 : ascii) (tail : string) :
  is_digit c0 = true \/ c0 = "-"%char ->
  parse_value (S fuel) (String c0 tail) = parse_number (String c0 tail).
Proof.
  intros H. by_bits c0; destruct H as [H|H]; try discriminate H; reflexivity.
Qed.

Lemma parse_number_positive (c0 : ascii) (d0 : string) (c : ascii) (rest : string) :
  is_digit c0 = true -> c0 <> "0"%char -> string_forall is_digit d0 = true -> closes c ->
  parse_number (String c0 (d0 +:+ String c rest))
  = Some (JInt (decimal_value 0 (String c0 d0)), String c rest).
Proof.
  intros H0 Hnz Hd Hc.
  assert (is_digit c = false) as Hcd by (destruct Hc as [->| ->]; reflexivity).
  by_bits c0; try discriminate H0; try (exfalso; apply Hnz; reflexivity);
    unfold parse_number; cbn [span_digits]; rewrite ?H0;
    change (is_digit _) with true; cbv iota;
    rewrite (span_digits_append d0 c rest Hd Hcd);
    destruct Hc as [->| ->]; reflexivity.
Qed.

Lemma parse_number_negative (c0 : ascii) (d0 : string) (c : ascii) (rest : string) :
  is_digit c0 = true -> c0 <> "0"%char -> string_forall is_digit d0 = true -> closes c ->
  parse_number (String "-" (String c0 (d0 +:+ String c rest)))
  = Some (JInt (- decimal_value 0 (String c0 d0)), String c rest).
Proof.
  intros H0 Hnz Hd Hc.
  assert (is_digit c = false) as Hcd by (destruct Hc as [->| ->]; reflexivity).
  by_bits c0; try discriminate H0; try (exfalso; apply Hnz; reflexivity);
    unfold parse_number; cbn [span_digits]; rewrite ?H0;
    change (is_digit _) with true; cbv iota;
    rewrite (span_digits_append d0 c rest Hd Hcd);
    destruct Hc as [->| ->]; reflexivity.
Qed.

Lemma number_string_led (z : Z) :
  exists c0 tail, number_string z = String c0 tail /\ (is_digit c0 = true \/ c0 = "-"%char).
Proof.
  unfold number_string. destruct (z <? 0)%Z eqn:E.
  - eexists _, _. split; [reflexivity|]. by right.
  - destruct (pos_digits_writes (Z.to_nat (Z.log2 z) + 1) z EmptyString) as (d & Hp & Hall & _ & Hl).
    + lia.
    + pose proof (Z.log2_nonneg z). lia.
    + rewrite Hp, append_Empty_r. destruct d as [|c0 d]; [done|].
      exists c0, d. split; [done|]. left. cbn [string_forall] in Hall.
      by apply andb_prop in Hall as [? _].
Qed.

(** What [JSON.parse] reads where [JSON.stringify] has written an
    integer, before a comma or a closing brace. *)
Lemma parse_number_string (z : Z) (c : ascii) (rest : string) :
  closes c ->
  parse_number (number_string z +:+ String c rest) = Some (JInt z, String c rest).
Proof.
  intros Hc. unfold number_string.
  destruct (z <? 0)%Z eqn:E.
  - destruct (pos_digits_writes (Z.to_nat (Z.log2 (- z)) + 1) (- z) EmptyString)
      as (d & Hp & Hall & Hval & Hl).
    + lia.
    + pose proof (Z.log2_nonneg (- z)). lia.
    + rewrite Hp, append_Empty_r. destruct d as [|c0 d0]; [done|].
      cbn [string_forall] in Hall. apply andb_prop in Hall as [H0 Hd].
      repeat (rewrite append_String || rewrite append_Empty).
      rewrite parse_number_negative by (done || apply Hl; lia).
      rewrite Hval. do 3 f_equal. lia.
  - destruct (Z.eq_dec z 0%Z) as [->|Hz].
    + destruct Hc as [->| ->]; reflexivity.
    + destruct (pos_digits_writes (Z.to_nat (Z.log2 z) + 1) z EmptyString)
        as (d & Hp & Hall & Hval & Hl).
      * lia.
      * pose proof (Z.log2_nonneg z). lia.
      * rewrite Hp, append_Empty_r. destruct d as [|c0 d0]; [done|].
        cbn [string_forall] in Hall. apply andb_prop in Hall as [H0 Hd].
        rewrite append_String.
        rewrite parse_number_positive by (done || apply Hl; lia).
        by rewrite Hval.
Qed.

Lemma parse_value_number_string (fuel : nat) (z : Z) (c : ascii) (rest : string) :
  closes c ->
  parse_value (S fuel) (number_string z +:+ String c rest) = Some (JInt z, String c rest).
Proof.
  intros Hc. rewrite <- (parse_number_string z c rest Hc).
  destruct (number_string_led z) as (c0 & tail & -> & H).
  rewrite append_String. by apply parse_value_number_led.
Qed.

Lemma parse_value_object (fuel : nat) (tail : string) :
  parse_value (S fuel) (String "{" (String dquote tail))
  = parse_members fuel (String dquote tail) [].
Proof. reflexivity. Qed.

Lemma parse_members_iat (fuel : nat) (tail : string) (acc : list (string * json)) :
  parse_members (S fuel)
    (String dquote (String "i" (String "a" (String "t" (String dquote (String ":" tail)))))) acc
  = match parse_value fuel tail with
    | Some (v, r3) =>
        match skip_ws r3 with
        | String "," r4 => parse_members fuel r4 (("iat", v) :: acc)
        | String "}" r4 => Some (JObject (List.rev (("iat", v) :: acc)), r4)
        | _ => None
        end
    | None => None
    end.
Proof. reflexivity. Qed.

Lemma parse_members_exp (fuel : nat) (tail : string) (acc : list (string * json)) :
  parse_members (S fuel)
    (String dquote (String "e" (String "x" (String "p" (String dquote (String ":" tail)))))) acc
  = match parse_value fuel tail with
    | Some (v, r3) =>
        match skip_ws r3 with
        | String "," r4 => parse_members fuel r4 (("exp", v) :: acc)
        | String "}" r4 => Some (JObject (List.rev (("exp", v) :: acc)), r4)
        | _ => None
        end
    | None => None
    end.
Proof. reflexivity. Qed.

Lemma stringify_iat_exp_shape (iat exp : Z) :
  stringify_iat_exp iat exp
  = String "{" (String dquote (String "i" (String "a" (String "t" (String dquote
      (String ":" (number_string iat +:+ String ","
         (String dquote (String "e" (String "x" (String "p" (String dquote
            (String ":" (number_string exp +:+ String "}" EmptyString)))))))))))))).
Proof.
  unfold stringify_iat_exp, quoted.
  repeat (rewrite append_String || rewrite append_Empty || rewrite append_assoc).
  reflexivity.
Qed.

(** The payload that [createStatelessToken] writes parses back to the
    two timestamps. *)
Lemma parse_stringify_iat_exp (iat exp : Z) :
  JSON_parse (stringify_iat_exp iat exp)
  = Ok (JObject [("iat", JInt iat); ("exp", JInt exp)]).
Proof.
  unfold JSON_parse.
  assert (exists n, 2 * String.length (stringify_iat_exp iat exp) + 2 = S (S (S (S n)))) as [n ->].
  { assert (1 <= String.length (stringify_iat_exp iat exp))
      by (rewrite stringify_iat_exp_shape; cbn [String.length]; lia).
    exists (2 * (String.length (stringify_iat_exp iat exp) - 1)). lia. }
  rewrite stringify_iat_exp_shape.
  rewrite parse_value_object, parse_members_iat.
  rewrite parse_value_number_string by (by left).
  cbn [skip_ws is_ws]. change (is_ws ",") with false. cbv iota.
  rewrite parse_members_exp.
  rewrite parse_value_number_string by (by right).
  reflexivity.
Qed.


Lemma to_N_byte_of_ascii (c : ascii) : Byte.to_N (byte_of_ascii c) = N_of_ascii c.
Proof. by_bits c; reflexivity. Qed.

Lemma well_formed_ascii (s : string) : string_forall is_ascii s = true -> well_formed s.
Proof.
  unfold well_formed, toString_utf8, utf8.
  induction s as [|c s IH]; [done|].
  cbn [string_forall]. intros [Hc Hs]%andb_prop.
  change (list_byte_of_string (String c s)) with (byte_of_ascii c :: list_byte_of_string s).
  cbn [utf8_scan]. rewrite to_N_byte_of_ascii.
  unfold is_ascii in Hc. apply N.ltb_lt in Hc.
  assert ((N_of_ascii c <=? 127)%N = true) as -> by (apply N.leb_le; lia).
  unfold str1. rewrite append_String, append_Empty, ascii_of_byte_of_ascii.
  by rewrite IH.
Qed.

Lemma is_digit_ascii (s : string) :
  string_forall is_digit s = true -> string_forall is_ascii s = true.
Proof.
  induction s as [|c s IH]; [done|]. cbn [string_forall].
  intros [Hc Hs]%andb_prop. rewrite IH by done.
  revert Hc. by_bits c; vm_compute; congruence.
Qed.

Lemma number_string_ascii (z : Z) : string_forall is_ascii (number_string z) = true.
Proof.
  unfold number_string. destruct (z <? 0)%Z eqn:E.
  - destruct (pos_digits_writes (Z.to_nat (Z.log2 (- z)) + 1) (- z) EmptyString) as (d & -> & Hd & _).
    + lia.
    + pose proof (Z.log2_nonneg (- z)). lia.
    + rewrite append_String, append_Empty, append_Empty_r. cbn [string_forall].
      by rewrite is_digit_ascii.
  - destruct (pos_digits_writes (Z.to_nat (Z.log2 z) + 1) z EmptyString) as (d & -> & Hd & _).
    + lia.
    + pose proof (Z.log2_nonneg z). lia.
    + rewrite append_Empty_r. by rewrite is_digit_ascii.
Qed.

Lemma stringify_iat_exp_ascii (iat exp : Z) :
  string_forall is_ascii (stringify_iat_exp iat exp) = true.
Proof.
  rewrite stringify_iat_exp_shape. cbn [string_forall].
  rewrite string_forall_append, number_string_ascii. cbn [string_forall].
  rewrite string_forall_append, number_string_ascii. reflexivity.
Qed.

Lemma stringify_iat_exp_nonempty (iat exp : Z) : stringify_iat_exp iat exp <> EmptyString.
Proof. by rewrite stringify_iat_exp_shape. Qed.


Lemma separator_free_spec (mac : list byte) :
  separator_free mac = true <-> ~ In separator mac.
Proof.
  unfold separator_free. rewrite forallb_forall. split.
  - intros H Hin. specialize (H _ Hin). by rewrite bool_decide_eq_true_2 in H.
  - intros H b Hb. apply negb_true_iff, bool_decide_eq_false_2. intros ->. done.
Qed.

Lemma lastIndexOf_split (l : list byte) (x : byte) :
  (0 <= lastIndexOf l x)%Z ->
  l = List.firstn (Z.to_nat (lastIndexOf l x)) l ++ x :: List.skipn (Z.to_nat (lastIndexOf l x + 1)) l /\
  ~ In x (List.skipn (Z.to_nat (lastIndexOf l x + 1)) l).
Proof.
  induction l as [|b r IH]; cbn [lastIndexOf]; [lia|].
  pose proof (lastIndexOf_range r x) as Hr.
  destruct (0 <=? lastIndexOf r x)%Z eqn:E.
  - intros _. destruct IH as [IH1 IH2]; [lia|].
    replace (Z.to_nat (lastIndexOf r x + 1)) with (S (Z.to_nat (lastIndexOf r x))) in * by lia.
    replace (Z.to_nat (lastIndexOf r x + 1 + 1)) with (S (S (Z.to_nat (lastIndexOf r x)))) by lia.
    cbn [firstn skipn app]. change (skipn ?n r) with (drop n r) in *.
    split; [by rewrite <- IH1|done].
  - case_bool_decide as Hb; [|lia]. intros _. subst b.
    cbn [Z.to_nat firstn app Z.add Pos.to_nat Pos.iter_op Nat.add skipn].
    split; [done|].
    assert (lastIndexOf r x = (-1)%Z) as H1 by lia.
    by apply lastIndexOf_absent.
Qed.

(** X1. What the verification makes of the token that [signPayload] makes
    of a well-formed payload of one character or more, under a key that
    [createHmac] takes: the token is made, and it verifies to the parsed
    payload (null when the payload is not JSON) exactly when the MAC holds
    no byte 0x2E; when the MAC holds one, the token is refused. *)
Theorem signed_token_verdict (payloadStr : string) (key : jsval) (kb : list byte) :
  key_bytes key = Some kb ->
  payloadStr <> EmptyString -> well_formed payloadStr ->
  exists tok, signPayload payloadStr key = Ok tok /\
    verifySignedToken (VStr tok) key =
      if separator_free (SHA256.hmac kb (utf8 payloadStr))
      then Verdict true (try_catch (JSON_parse payloadStr) (fun _ => JNull))
      else Verdict false JNull.
Proof.
  intros Hk Hne Hwf.
  assert (createHmac_digest key payloadStr = Ok (SHA256.hmac kb (utf8 payloadStr))) as Hmac
    by (by rewrite createHmac_digest_spec, Hk).
  assert (signPayload payloadStr key
          = Ok (encode (utf8 payloadStr ++ [separator] ++ SHA256.hmac kb (utf8 payloadStr)))) as Hs
    by (unfold signPayload; by rewrite Hmac).
  eexists. split; [exact Hs|].
  destruct (separator_free _) eqn:E.
  - apply separator_free_spec in E. by eapply signed_token_accepted.
  - eapply signed_token_rejected; [exact Hmac| |exact Hs].
    destruct (In_dec byte_eq_dec separator (SHA256.hmac kb (utf8 payloadStr))) as [Hin|Hout]; [done|].
    apply separator_free_spec in Hout. congruence.
Qed.

Lemma signed_token_verdict_witness :
  exists tok, signPayload "not json" (VStr "test-stateless-key-xxx") = Ok tok /\
    verifySignedToken (VStr tok) (VStr "test-stateless-key-xxx") = Verdict true JNull.
Proof.
  destruct (signed_token_verdict "not json" (VStr "test-stateless-key-xxx")
              (utf8 "test-stateless-key-xxx") eq_refl) as (tok & H1 & H2).
  - discriminate.
  - vm_compute. reflexivity.
  - exists tok. split; [exact H1|]. rewrite H2. vm_compute. reflexivity.
Defined.

(** X2. The token that [signPayload] makes of the empty payload is refused
    under the key that made it: the separator leads, or the MAC holds one
    and splits in the wrong place. *)
Theorem empty_payload_refused (key : jsval) (kb : list byte) :
  key_bytes key = Some kb ->
  exists tok, signPayload EmptyString key = Ok tok /\
    verifySignedToken (VStr tok) key = Verdict false JNull.
Proof.
  intros Hk.
  assert (createHmac_digest key EmptyString = Ok (SHA256.hmac kb [])) as Hmac
    by (by rewrite createHmac_digest_spec, Hk).
  assert (signPayload EmptyString key = Ok (encode ([] ++ [separator] ++ SHA256.hmac kb []))) as Hs
    by (unfold signPayload; by rewrite Hmac).
  eexists. split; [exact Hs|].
  destruct (In_dec byte_eq_dec separator (SHA256.hmac kb [])) as [Hin|Hout].
  - by eapply signed_token_rejected.
  - rewrite verifySignedToken_cases, decode_encode. cbv zeta.
    change ([] ++ [separator] ++ SHA256.hmac kb []) with ([] ++ separator :: SHA256.hmac kb []).
    rewrite (lastIndexOf_token [] (SHA256.hmac kb [])).
    apply lastIndexOf_absent in Hout. rewrite Hout. reflexivity.
Qed.

Lemma empty_payload_refused_witness :
  exists tok, signPayload EmptyString (VBuf []) = Ok tok /\
    verifySignedToken (VStr tok) (VBuf []) = Verdict false JNull.
Proof. apply (empty_payload_refused (VBuf []) []). reflexivity. Defined.

Lemma ok_token_authentic (tokenStr key : jsval) :
  ok (verifySignedToken tokenStr key) = true ->
  exists t p kb,
    tokenStr = VStr t /\ key_bytes key = Some kb /\ p <> [] /\
    decode_string t = p ++ separator :: SHA256.hmac kb (utf8 (toString_utf8 p)) /\
    ~ In separator (SHA256.hmac kb (utf8 (toString_utf8 p))) /\
    payload (verifySignedToken tokenStr key)
    = try_catch (JSON_parse (toString_utf8 p)) (fun _ => JNull).
Proof.
  rewrite verifySignedToken_cases.
  destruct tokenStr as [t|b|o]; cbn [decode]; [|done|done].
  cbv zeta. set (raw := decode_string t). set (i := lastIndexOf raw separator).
  destruct (i <=? 0)%Z eqn:Ei; [done|].
  rewrite createHmac_digest_spec. destruct (key_bytes key) as [kb|]; [|done].
  case_bool_decide as Hmac; [|done]. intros _.
  destruct (lastIndexOf_split raw separator) as [Hsplit Hfree]; [fold i; lia|]. fold i in Hsplit, Hfree.
  exists t, (List.firstn (Z.to_nat i) raw), kb.
  split; [done|]. split; [done|]. split.
  { intros H0. apply (f_equal (@List.length byte)) in H0.
    pose proof (lastIndexOf_range raw separator) as Hr. fold i in Hr.
    rewrite List.length_firstn in H0. cbn [List.length] in H0. lia. }
  rewrite <- Hmac. fold raw. done.
Qed.


(** X3. The tokens that are accepted are those that carry the MAC of
    their payload, and no others: the verdict is ok if and only if the
    token is a string that decodes to a payload of one byte or more, the
    byte 0x2E and the HMAC-SHA-256, under a key that is a string or a
    Buffer, of the text of that payload, where that MAC holds no byte
    0x2E. *)
Theorem accepted_token_is_authentic (tokenStr key : jsval) :
  ok (verifySignedToken tokenStr key) = true <->
  exists t p kb,
    tokenStr = VStr t /\ key_bytes key = Some kb /\ p <> [] /\
    decode_string t = p ++ separator :: SHA256.hmac kb (utf8 (toString_utf8 p)) /\
    ~ In separator (SHA256.hmac kb (utf8 (toString_utf8 p))).
Proof.
  split.
  - intros H. destruct (ok_token_authentic _ _ H) as (t & p & kb & H1 & H2 & H3 & H4 & H5 & _).
    by exists t, p, kb.
  - intros (t & p & kb & -> & Hk & Hp & Hraw & Hfree).
    rewrite verifySignedToken_cases. cbn [decode]. cbv zeta. rewrite Hraw.
    rewrite lastIndexOf_token.
    apply lastIndexOf_absent in Hfree. rewrite Hfree.
    cbn [Z.leb Z.compare]. rewrite Z.add_0_r.
    assert (0 < List.length p) as Hlen by (destruct p; [done|cbn [List.length]; lia]).
    destruct (Z.of_nat (List.length p) <=? 0)%Z eqn:E; [lia|].
    rewrite Nat2Z.id.
    rewrite List.firstn_app, Nat.sub_diag, List.firstn_all. cbn [firstn]. rewrite List.app_nil_r.
    replace (Z.to_nat (Z.of_nat (List.length p) + 1)) with (List.length p + 1)%nat by lia.
    rewrite List.skipn_app, List.skipn_all2 by lia.
    replace (List.length p + 1 - List.length p)%nat with 1%nat by lia.
    cbn [skipn app]. rewrite createHmac_digest_spec, Hk.
    by rewrite bool_decide_eq_true_2.
Qed.

Lemma createStatelessToken_text (now ttlMs : Z) (key : jsval) (kb : list byte) :
  key_bytes key = Some kb ->
  createStatelessToken now ttlMs key
  = Ok (encode (utf8 (stringify_iat_exp now (now + ttlMs)) ++ [separator]
                ++ SHA256.hmac kb (utf8 (stringify_iat_exp now (now + ttlMs))))).
Proof.
  intros Hk. unfold createStatelessToken, signPayload. cbv zeta.
  by rewrite createHmac_digest_spec, Hk.
Qed.

Lemma minted_payload_verdict (now ttlMs : Z) (key : jsval) (kb : list byte) (tok : string) :
  key_bytes key = Some kb ->
  ~ In separator (SHA256.hmac kb (utf8 (stringify_iat_exp now (now + ttlMs)))) ->
  createStatelessToken now ttlMs key = Ok tok ->
  verifySignedToken (VStr tok) key
  = Verdict true (JObject [("iat", JInt now); ("exp", JInt (now + ttlMs))]).
Proof.
  intros Hk Hfree Hs. unfold createStatelessToken in Hs. cbv zeta in Hs.
  set (payloadStr := stringify_iat_exp now (now + ttlMs)) in *.
  assert (createHmac_digest key payloadStr = Ok (SHA256.hmac kb (utf8 payloadStr))) as Hmac
    by (by rewrite createHmac_digest_spec, Hk).
  rewrite (signed_token_accepted payloadStr key _ _ (stringify_iat_exp_nonempty _ _)
             (well_formed_ascii _ (stringify_iat_exp_ascii _ _)) Hmac Hfree Hs).
  unfold payloadStr. by rewrite parse_stringify_iat_exp.
Qed.

(** X4. The token that [createStatelessToken] makes at the time [now] with
    the lifetime [ttlMs] verifies, under the key that signed it, to the
    payload with [iat = now] and [exp = now + ttlMs], for every time and
    lifetime (negative ones too) in the range in which the sum of the
    source is exact ([now], [ttlMs] and [now + ttlMs] safe integers) and
    whose MAC holds no byte 0x2E. *)
Theorem minted_token_verdict (now ttlMs : Z) (key : jsval) (kb : list byte) :
  safe_integer now = true -> safe_integer ttlMs = true ->
  safe_integer (now + ttlMs) = true ->
  key_bytes key = Some kb ->
  ~ In separator (SHA256.hmac kb (utf8 (stringify_iat_exp now (now + ttlMs)))) ->
  exists tok, createStatelessToken now ttlMs key = Ok tok /\
    verifySignedToken (VStr tok) key
    = Verdict true (JObject [("iat", JInt now); ("exp", JInt (now + ttlMs))]).
Proof.
  intros _ _ _ Hk Hfree.
  pose proof (createStatelessToken_text now ttlMs key kb Hk) as Hs.
  eexists. split; [exact Hs|].
  exact (minted_payload_verdict now ttlMs key kb _ Hk Hfree Hs).
Qed.

Lemma minted_token_verdict_witness :
  exists tok, createStatelessToken 1700000000000 (-1000) (VStr "test-stateless-key-xxx") = Ok tok /\
    verifySignedToken (VStr tok) (VStr "test-stateless-key-xxx")
    = Verdict true (JObject [("iat", JInt 1700000000000);
                             ("exp", JInt (1700000000000 + -1000))]).
Proof.
  apply (minted_token_verdict 1700000000000 (-1000) (VStr "test-stateless-key-xxx")
           (utf8 "test-stateless-key-xxx") eq_refl eq_refl eq_refl eq_refl).
  apply separator_free_spec. vm_compute. reflexivity.
Defined.

Section VerifyProperties.
Context (P : platform) {W : Type}.
Implicit Types (opts : options W) (req : request) (w : W).

Lemma origin_gate opts req :
  originCheck opts && negb (origin_ok P req) = false <->
  originCheck opts = false \/ origin_ok P req = true.
Proof. destruct (originCheck opts), (origin_ok P req); cbn; intuition discriminate. Qed.

(** X5. In stateful mode a request whose method is not exempt is let
    through exactly when the origin check passes or is off, a token is
    given, the request names a session, the store answers with a text that
    is not empty, and the token (unmasked when [mask] is on) decodes to
    the very bytes that this text decodes to. *)
Theorem stateful_accepts_iff opts (now : Z) req w :
  stateless opts = false ->
  includes (allowedMethods opts) (method req) = false ->
  fst (verify P opts now req w) = Next <->
  (originCheck opts = false \/ origin_ok P req = true) /\
  truthy (extract_token opts req) = true /\
  exists key stored,
    session_key opts req = Some key /\
    fst (store_get opts now key w) = Ok (Some stored) /\ stored <> EmptyString /\
    (if mask opts then unmaskToken (extract_token opts req) else decode (extract_token opts req))
    = Ok (decode_string stored).
Proof.
  intros Hs Hm. unfold verify. rewrite Hm, Hs. split.
  - destruct (originCheck opts && negb (origin_ok P req)) eqn:Eo; [done|].
    destruct (truthy (extract_token opts req)) eqn:Et; cbn [negb]; [|done].
    destruct (session_key opts req) as [key|]; [|done].
    destruct (store_get opts now key w) as [got w'] eqn:Eg.
    destruct got as [stored|e]; [|done].
    destruct stored as [s|]; cbn [nonempty]; [|done].
    destruct (is_empty s) eqn:Es; [done|].
    destruct (if mask opts then _ else _) as [provided|e] eqn:Ep; [|done].
    destruct (negb (List.length provided =? List.length (decode_string s))) eqn:El; [done|].
    rewrite safeEqual_spec. cbn [to_buffer]. case_bool_decide as Heq; [|done]. intros _.
    split; [by apply origin_gate|]. split; [done|].
    exists key, s. split; [done|]. split; [by rewrite Eg|]. split; [by destruct s|]. by rewrite Heq.
  - intros (Ho & Ht & key & stored & Hk & Hg & Hne & Hp).
    apply origin_gate in Ho. rewrite Ho, Ht. cbn [negb]. rewrite Hk.
    destruct (store_get opts now key w) as [got w']. cbn [fst] in Hg. subst got.
    cbn [nonempty]. destruct stored as [|c s]; [done|]. cbn [is_empty].
    rewrite Hp, Nat.eqb_refl. cbn [negb].
    rewrite safeEqual_spec. cbn [to_buffer]. by rewrite bool_decide_eq_true_2.
Qed.

(** X6. Whatever the request, the options and the store, [verify] does one
    of three things: it calls [next()], it answers 403, or it answers 500
    with one fixed text; and 500 is the answer only in stateful mode when
    the [get] of the store has thrown (or is missing). The comparison of
    the secrets never throws, since the lengths are compared first. *)
Theorem verify_answers opts (now : Z) req w :
  fst (verify P opts now req w) = Next \/
  (exists text, fst (verify P opts now req w) = Send 403 text) \/
  (fst (verify P opts now req w) = Send 500 "CSRF verification error." /\
   stateless opts = false /\
   exists key e, session_key opts req = Some key /\
                 fst (store_get opts now key w) = Throw e).
Proof.
  unfold verify.
  destruct (includes _ _); [by left|].
  destruct (originCheck opts && negb (origin_ok P req)); [right; left; by eexists|].
  destruct (negb (truthy _)); [right; left; by eexists|].
  destruct (stateless opts) eqn:Hs.
  { destruct (negb (ok _)); [right; left; by eexists|].
    destruct (expired _ _ _); [right; left; by eexists|by left]. }
  destruct (session_key opts req) as [key|]; [|right; left; by eexists].
  destruct (store_get opts now key w) as [got w'] eqn:Eg.
  destruct got as [stored|e].
  2:{ right; right. split; [done|]. split; [done|]. exists key, e. by rewrite Eg. }
  destruct (nonempty stored) as [s|]; [|right; left; by eexists].
  destruct (if mask opts then _ else _) as [provided|e]; [|right; left; by eexists].
  destruct (negb (_ =? _)); [right; left; by eexists|].
  rewrite safeEqual_spec. destruct (bool_decide _); [by left|right; left; by eexists].
Qed.

Lemma decode_not_string (token : jsval) :
  (forall s, token <> VStr s) -> exists e, decode token = Throw e.
Proof. destruct token as [s|b|o]; intros H; [by destruct (H s)|by eexists|by eexists]. Qed.

(** X7. A token that is not a string (a number or an array that a body
    parser has made of the field, say) never passes: [decode] throws on
    it, which the stateless verification turns into a refusal and the
    stateful one into "malformed". *)
Theorem non_string_token_refused opts (now : Z) req w :
  includes (allowedMethods opts) (method req) = false ->
  (forall s, extract_token opts req <> VStr s) ->
  fst (verify P opts now req w) <> Next.
Proof.
  intros Hm Hn. destruct (decode_not_string _ Hn) as [e He].
  unfold verify. rewrite Hm.
  destruct (originCheck opts && negb (origin_ok P req)); [done|].
  destruct (negb (truthy _)); [done|].
  destruct (stateless opts).
  { rewrite verifySignedToken_cases, He. done. }
  destruct (session_key opts req) as [key|]; [|done].
  destruct (store_get opts now key w) as [got w'].
  destruct got as [stored|e']; [|done].
  destruct (nonempty stored) as [s|]; [|done].
  unfold unmaskToken. rewrite He. by destruct (mask opts).
Qed.

(** X8. With no token in the header, the body or the query, a request
    whose method is not exempt and that passes the origin check is
    answered 403 "CSRF token missing." in either mode, and the store is
    not consulted. *)
Theorem missing_token_refused opts (now : Z) req w :
  includes (allowedMethods opts) (method req) = false ->
  originCheck opts = false \/ origin_ok P req = true ->
  nonempty (header req (headerName opts)) = None ->
  truthy (field (body req) (fieldName opts)) = false ->
  truthy (field (query req) (fieldName opts)) = false ->
  verify P opts now req w = (Send 403 "CSRF token missing.", w).
Proof.
  intros Hm Ho Hh Hb Hq. apply origin_gate in Ho.
  unfold verify. rewrite Hm, Ho.
  assert (truthy (extract_token opts req) = false) as ->; [|done].
  unfold extract_token, js_or. rewrite Hb, Hq.
  destruct (header req (headerName opts)) as [[|c s]|]; [done|done|done].
Qed.

(** X9. In stateless mode a request whose method is not exempt is let
    through only with a signed token that has not lapsed: the token of the
    request is a string that decodes to a payload, the byte 0x2E and the
    HMAC-SHA-256 of that payload under [statelessKey], the origin check
    passes or is off, and the payload is not expired at that time. *)
Theorem stateless_accepts_only_signed opts (now : Z) req w :
  stateless opts = true ->
  includes (allowedMethods opts) (method req) = false ->
  fst (verify P opts now req w) = Next ->
  (originCheck opts = false \/ origin_ok P req = true) /\
  exists t p kb,
    extract_token opts req = VStr t /\ key_bytes (statelessKey opts) = Some kb /\ p <> [] /\
    decode_string t = p ++ separator :: SHA256.hmac kb (utf8 (toString_utf8 p)) /\
    expired P now (try_catch (JSON_parse (toString_utf8 p)) (fun _ => JNull)) = false.
Proof.
  intros Hs Hm. unfold verify. rewrite Hm, Hs.
  destruct (originCheck opts && negb (origin_ok P req)) eqn:Eo; [done|].
  destruct (negb (truthy _)); [done|].
  destruct (ok (verifySignedToken _ _)) eqn:Ev; cbn [negb]; [|done].
  destruct (expired _ _ _) eqn:Ee; [done|]. intros _.
  split; [by apply origin_gate|].
  destruct (ok_token_authentic _ _ Ev) as (t & p & kb & H1 & H2 & H3 & H4 & _ & H6).
  exists t, p, kb. rewrite <- H6. done.
Qed.

(** X10. In stateless mode [verify] neither reads nor changes the store:
    the state of the store is returned as it was, and the answer is the
    same over any other state. *)
Theorem stateless_verify_ignores_store opts (now : Z) req w w' :
  stateless opts = true ->
  snd (verify P opts now req w) = w /\
  fst (verify P opts now req w') = fst (verify P opts now req w).
Proof.
  intros Hs. unfold verify. rewrite Hs.
  destruct (includes _ _); [done|].
  destruct (originCheck opts && negb (origin_ok P req)); [done|].
  destruct (negb (truthy _)); [done|].
  destruct (negb (ok _)); [done|].
  by destruct (expired _ _ _).
Qed.

(** X11. The life of a stateless token in the engine: the token that
    [req.csrfPlus.token()] makes at the time [now], when its MAC holds no
    byte 0x2E, is let through at every time up to [now + statelessTTL],
    and answered 403 "CSRF token expired." at every later time, except
    that a token whose expiry [now + statelessTTL] is 0 is let through at
    every time. The statement keeps to the range in which the sum of the
    source is exact: [now], [statelessTTL] and their sum safe integers. *)
Theorem minted_token_lifetime opts (now later : Z) req0 (wd : world W) req w (kb : list byte) :
  stateless opts = true ->
  safe_integer now = true -> safe_integer (statelessTTL opts) = true ->
  safe_integer (now + statelessTTL opts) = true ->
  key_bytes (statelessKey opts) = Some kb ->
  ~ In separator
      (SHA256.hmac kb (utf8 (stringify_iat_exp now (now + statelessTTL opts)))) ->
  includes (allowedMethods opts) (method req) = false ->
  originCheck opts = false \/ origin_ok P req = true ->
  exists tok,
    csrfPlus_token opts now req0 wd = (Ok tok, wd) /\
    (header req (headerName opts) = Some tok ->
     verify P opts later req w =
     (if (negb (now + statelessTTL opts =? 0) && (later >? now + statelessTTL opts))%Z
      then Send 403 "CSRF token expired." else Next, w)).
Proof.
  intros Hs _ _ _ Hk Hfree Hm Ho.
  pose proof (createStatelessToken_text now (statelessTTL opts) (statelessKey opts) kb Hk)
    as Hmint.
  pose proof (minted_payload_verdict now (statelessTTL opts) (statelessKey opts) kb _
                Hk Hfree Hmint) as Hver.
  set (tok := encode _) in Hmint, Hver.
  exists tok. split; [unfold csrfPlus_token; by rewrite Hs, Hmint|].
  intros Hh. apply origin_gate in Ho.
  assert (extract_token opts req = VStr tok) as Ht.
  { unfold extract_token, js_or. rewrite Hh. cbn [of_string].
    assert (truthy (VStr tok) = true) as ->; [|done].
    apply (verified_token_truthy _ (statelessKey opts)). by rewrite Hver. }
  unfold verify. rewrite Hm, Ho, Hs, Ht, Hver. cbn [ok payload negb truthy].
  assert (truthy (VStr tok) = true) as Htr
    by (apply (verified_token_truthy _ (statelessKey opts)); by rewrite Hver).
  cbn [truthy] in Htr. rewrite Htr. cbn [negb].
  unfold expired. cbn [json_truthy get_member List.fold_left fst snd String.eqb Ascii.eqb Bool.eqb andb now_gt].
  by destruct (negb (now + statelessTTL opts =? 0)%Z && (later >? now + statelessTTL opts)%Z).
Qed.

End VerifyProperties.

(* ---- the secret of a client ---- *)
Lemma decode_string_encode (buf : list byte) : decode_string (encode buf) = buf.
Proof. pose proof (decode_encode buf) as H. cbn [decode] in H. congruence. Qed.

Lemma encode_empty (buf : list byte) : encode buf = EmptyString -> buf = [].
Proof. intros H. rewrite <- (decode_string_encode buf), H. reflexivity. Qed.

Lemma mem_get_Some (now : Z) (k s : string) (m : memory) :
  fst (mem_get now k m) = Some s ->
  mem_get now k m = (Some s, m) /\ exists e, map m !! k = Some e /\ val e = s.
Proof.
  unfold mem_get. destruct (map m !! k) as [e|]; [|done].
  destruct (exp e) as [x|].
  - destruct (negb (x =? 0)%Z && (now >? x)%Z); [done|].
    cbn [fst]. intros [= <-]. split; [done|]. by exists e.
  - cbn [fst]. intros [= <-]. split; [done|]. by exists e.
Qed.

Lemma mem_get_live (now : Z) (k : string) (m : memory) (e : entry) :
  map m !! k = Some e -> is_Some (fst (mem_get now k m)) ->
  mem_get now k m = (Some (val e), m).
Proof.
  intros He [s Hs]. destruct (mem_get_Some _ _ _ _ Hs) as (H1 & e' & H2 & H3).
  rewrite H1. congruence.
Qed.

Section MintingProperties.
Context {W : Type}.
Implicit Types (opts : options W) (req : request) (wd : world W).

(** The key of the client: the one that the request names, or a fresh one. *)
Lemma getOrCreateSecret_key opts (now : Z) req wd :
  stateless opts = false ->
  getOrCreateSecret opts now req wd =
  let (key, wd) :=
    match session_key opts req with
    | Some k => (k, wd)
    | None =>
        let k := encode (fst (randomBytes 16 (rng wd))) in
        (k, World (snd (randomBytes 16 (rng wd)))
                  (res_cookie (cookieSidName opts) k (res wd)) (stores wd))
    end in
  let (got, w1) := store_get opts now key (stores wd) in
  match got with
  | Throw e => (Throw e, World (rng wd) (res wd) w1)
  | Ok stored =>
      match nonempty stored with
      | None =>
          let (secret, rng') := randomBytes (secretLen opts) (rng wd) in
          let (done, w2) := store_set opts now key (encode secret) (ttl opts) w1 in
          match done with
          | Throw e => (Throw e, World rng' (res wd) w2)
          | Ok _ => (Ok (Some (key, secret)), World rng' (res wd) w2)
          end
      | Some storedB64 =>
          (Ok (Some (key, decode_string storedB64)), World (rng wd) (res wd) w1)
      end
  end.
Proof.
  intros Hs. unfold getOrCreateSecret, session_key. rewrite Hs.
  destruct (nonempty (session_id req)); [done|].
  destruct (nonempty (header req "x-session-id")); [done|].
  destruct (cookies req) as [c|]; [|done].
  by destruct (nonempty (c (cookieSidName opts))).
Qed.

(** X12. [getOrCreateSecret] sets the session cookie only for a client
    that names no session: when the request carries a session id, an
    [x-session-id] header or the session cookie, the response is left as
    it was; otherwise exactly one cookie is added, named [cookieSidName],
    whose value is the text of 16 random bytes; and the key that is
    returned is the one named, or that value. *)
Theorem sid_cookie_only_for_new_client opts (now : Z) req wd :
  stateless opts = false ->
  res (snd (getOrCreateSecret opts now req wd)) =
  match session_key opts req with
  | Some _ => res wd
  | None => res_cookie (cookieSidName opts) (encode (fst (randomBytes 16 (rng wd)))) (res wd)
  end /\
  forall key secret,
    fst (getOrCreateSecret opts now req wd) = Ok (Some (key, secret)) ->
    key = match session_key opts req with
          | Some k => k
          | None => encode (fst (randomBytes 16 (rng wd)))
          end.
Proof.
  intros Hs. rewrite (getOrCreateSecret_key _ _ _ _ Hs).
  destruct (session_key opts req) as [k|]; cbv zeta.
  - destruct (store_get opts now k (stores wd)) as [got w1].
    destruct got as [stored|e]; [|done].
    destruct (nonempty stored) as [s|].
    + split; [done|]. cbn [fst]. congruence.
    + destruct (randomBytes (secretLen opts) (rng wd)) as [secret rng'].
      destruct (store_set _ _ _ _ _ _) as [r w2]. destruct r; [|done].
      split; [done|]. cbn [fst]. congruence.
  - cbn [stores rng res].
    destruct (store_get _ _ _ _) as [got w1].
    destruct got as [stored|e]; [|done].
    destruct (nonempty stored) as [s|].
    + split; [done|]. cbn [fst]. congruence.
    + destruct (randomBytes (secretLen opts) _) as [secret rng'].
      destruct (store_set _ _ _ _ _ _) as [r w2]. destruct r; [|done].
      split; [done|]. cbn [fst]. congruence.
Qed.

End MintingProperties.

Section MemoryEngine.
Context (P : platform).
Implicit Types (opts : options memory) (req : request) (wd : world memory).

(** After [getOrCreateSecret] over the memory store: the pair returned,
    and the entry that the store holds for it. *)
Lemma secret_entry opts (now : Z) req wd :
  stateless opts = false -> store opts = Some memory_store ->
  exists key secret wd1 e,
    getOrCreateSecret opts now req wd = (Ok (Some (key, secret)), wd1) /\
    map (stores wd1) !! key = Some e /\ decode_string (val e) = secret /\
    (secret <> [] -> val e <> EmptyString).
Proof.
  intros Hs Hst. rewrite (getOrCreateSecret_key _ _ _ _ Hs).
  set (start := match session_key opts req with Some k => _ | None => _ end).
  destruct start as [key [r rs m]]. cbn [rng res stores].
  unfold store_get, store_set. rewrite Hst. cbn [memory_store st_get st_set].
  unfold memory_get, memory_set.
  destruct (mem_get now key m) as [got m'] eqn:Eg.
  destruct (nonempty got) as [s|] eqn:En.
  - destruct got as [s'|]; [|done]. cbn [nonempty] in En.
    destruct (is_empty s') eqn:Es; [done|]. injection En as <-.
    destruct (mem_get_Some now key s' m) as (H1 & e & H2 & H3); [by rewrite Eg|].
    rewrite Eg in H1. injection H1 as ->.
    exists key, (decode_string s'), (World r rs m), e. cbn [stores].
    split; [done|]. split; [done|]. split; [by rewrite H3|].
    intros _. rewrite H3. by destruct s'.
  - destruct (randomBytes (secretLen opts) r) as [secret r'].
    eexists key, secret, _, _. split; [reflexivity|]. cbn [stores].
    unfold mem_set. cbn [map]. split; [apply lookup_insert_eq|]. cbn [val].
    split; [apply decode_string_encode|].
    intros Hne He. by apply encode_empty in He.
Qed.

(** X13. Over the memory store, [getOrCreateSecret] in stateful mode always
    returns a key and a secret, and leaves the store holding, under that
    key, a text that decodes to that secret: the secret that was stored
    before, or the fresh one it has just stored. *)
Theorem getOrCreateSecret_stores_secret opts (now : Z) req wd :
  stateless opts = false -> store opts = Some memory_store ->
  exists key secret wd1 e,
    getOrCreateSecret opts now req wd = (Ok (Some (key, secret)), wd1) /\
    map (stores wd1) !! key = Some e /\ decode_string (val e) = secret.
Proof.
  intros Hs Hst. destruct (secret_entry opts now req wd Hs Hst) as (k & s & wd1 & e & H1 & H2 & H3 & _).
  by exists k, s, wd1, e.
Qed.

Lemma secret_reused opts (now : Z) req wd (key : string) (e : entry) :
  stateless opts = false -> store opts = Some memory_store ->
  session_key opts req = Some key ->
  map (stores wd) !! key = Some e -> val e <> EmptyString ->
  is_Some (fst (mem_get now key (stores wd))) ->
  getOrCreateSecret opts now req wd = (Ok (Some (key, decode_string (val e))), wd).
Proof.
  intros Hs Hst Hk He Hne Hlive. rewrite (getOrCreateSecret_key _ _ _ _ Hs), Hk.
  unfold store_get. rewrite Hst. cbn [memory_store st_get]. unfold memory_get.
  rewrite (mem_get_live _ _ _ _ He Hlive). cbn [nonempty].
  destruct (val e) as [|c s] eqn:Ev; [done|]. cbn [is_empty]. by destruct wd.
Qed.

(** X14. Asking again changes nothing: when a request that names its
    session has been given a secret of one byte or more, a second call for
    the same session, at any time at which the store still holds the
    entry, returns the same key and the same secret, and leaves the random
    source, the response and the store as they were. *)
Theorem getOrCreateSecret_idempotent opts (t0 t1 : Z) req req' wd wd1
        (key : string) (secret : list byte) :
  stateless opts = false -> store opts = Some memory_store ->
  getOrCreateSecret opts t0 req wd = (Ok (Some (key, secret)), wd1) ->
  secret <> [] ->
  session_key opts req' = Some key ->
  is_Some (fst (mem_get t1 key (stores wd1))) ->
  getOrCreateSecret opts t1 req' wd1 = (Ok (Some (key, secret)), wd1).
Proof.
  intros Hs Hst Hfirst Hne Hk Hlive.
  destruct (secret_entry opts t0 req wd Hs Hst) as (k & s & wd' & e & H1 & H2 & H3 & H4).
  rewrite Hfirst in H1. injection H1 as <- <- <-.
  rewrite (secret_reused opts t1 req' wd1 key e Hs Hst Hk H2 (H4 Hne) Hlive).
  by rewrite H3.
Qed.

Lemma header_token opts req (tok : string) :
  tok <> EmptyString -> header req (headerName opts) = Some tok ->
  extract_token opts req = VStr tok.
Proof.
  intros Hne Hh. unfold extract_token, js_or. rewrite Hh. cbn [of_string truthy].
  by destruct tok.
Qed.

(** What [verify] does with the secret that the store holds. *)
Lemma stored_secret_verifies opts (now : Z) req (m : memory) (key : string) (e : entry)
      (tok : string) :
  stateless opts = false -> store opts = Some memory_store ->
  includes (allowedMethods opts) (method req) = false ->
  originCheck opts = false \/ origin_ok P req = true ->
  session_key opts req = Some key ->
  map m !! key = Some e -> val e <> EmptyString ->
  is_Some (fst (mem_get now key m)) ->
  tok <> EmptyString -> header req (headerName opts) = Some tok ->
  (if mask opts then unmaskToken (VStr tok) else decode (VStr tok))
  = Ok (decode_string (val e)) ->
  verify P opts now req m = (Next, m).
Proof.
  intros Hs Hst Hm Ho Hk He Hne Hlive Htok Hh Hcand.
  apply origin_gate in Ho. unfold verify.
  rewrite Hm, Ho, Hs, (header_token opts req tok Htok Hh), Hk.
  cbn [truthy]. destruct tok as [|c tok]; [done|]. cbn [is_empty negb].
  unfold store_get. rewrite Hst. cbn [memory_store st_get]. unfold memory_get.
  rewrite (mem_get_live _ _ _ _ He Hlive). cbn [nonempty].
  destruct (val e) as [|c' s] eqn:Ev; [done|]. cbn [is_empty].
  rewrite Hcand, Nat.eqb_refl. cbn [negb].
  rewrite safeEqual_spec. cbn [to_buffer]. by rewrite bool_decide_eq_true_2.
Qed.

Lemma unmask_masked (secret : list byte) (r : entropy) :
  secret <> [] ->
  unmaskToken (VStr (fst (makeMaskedToken secret r))) = Ok secret.
Proof.
  intros Hne. unfold makeMaskedToken.
  pose proof (randomBytes_length (List.length secret) r) as Hlen.
  destruct (randomBytes (List.length secret) r) as [pad r']. cbn [fst] in *.
  unfold unmaskToken. rewrite decode_encode. cbn [mbind result_bind].
  pose proof (xor_bytes_length pad secret Hlen) as Hx.
  rewrite List.length_app, Hx, Hlen.
  assert (0 < List.length secret) as Hpos by (destruct secret; [done|simpl; lia]).
  replace (List.length secret + List.length secret) with (2 * List.length secret) by lia.
  rewrite Nat.mul_comm, Nat.Div0.mod_mul, Nat.div_mul by lia.
  destruct (List.length secret * 2 =? 0) eqn:E; [apply Nat.eqb_eq in E; lia|].
  cbn [orb negb Nat.eqb].
  rewrite <- Hlen at 1. rewrite List.firstn_app, Nat.sub_diag, List.firstn_all.
  cbn [firstn]. rewrite List.app_nil_r.
  rewrite <- Hlen. rewrite List.skipn_app, Nat.sub_diag, List.skipn_all.
  change (drop 0 (xor_bytes pad secret)) with (xor_bytes pad secret). cbn [app].
  by rewrite xor_bytes_cancel.
Qed.

Lemma masked_nonempty (secret : list byte) (r : entropy) :
  secret <> [] -> fst (makeMaskedToken secret r) <> EmptyString.
Proof.
  intros Hne He. pose proof (unmask_masked secret r Hne) as H. rewrite He in H.
  vm_compute in H. discriminate.
Qed.

(** X15. The token cookie opens the door, without masking: over the memory
    store with [mask] off, [middleware] always calls [next()] after it
    has set the token cookie to the text of the secret of the client; and
    a later request of the same session, whose method is not exempt and
    that passes the origin check, is let through by [verify] with that
    text in the token header, at any time at which the store still holds
    the entry, provided the secret has one byte or more. *)
Theorem middleware_token_accepted opts (t0 : Z) req0 wd :
  stateless opts = false -> store opts = Some memory_store -> mask opts = false ->
  exists key secret wd1,
    getOrCreateSecret opts t0 req0 wd = (Ok (Some (key, secret)), wd1) /\
    middleware opts t0 req0 wd
    = (Next, World (rng wd1) (res_cookie (cookieName opts) (encode secret) (res wd1))
                   (stores wd1)) /\
    forall (t1 : Z) req,
      secret <> [] ->
      includes (allowedMethods opts) (method req) = false ->
      originCheck opts = false \/ origin_ok P req = true ->
      session_key opts req = Some key ->
      header req (headerName opts) = Some (encode secret) ->
      is_Some (fst (mem_get t1 key (stores wd1))) ->
      verify P opts t1 req (stores wd1) = (Next, stores wd1).
Proof.
  intros Hs Hst Hmask.
  destruct (secret_entry opts t0 req0 wd Hs Hst) as (key & secret & wd1 & e & H1 & H2 & H3 & H4).
  exists key, secret, wd1. split; [done|]. split.
  { unfold middleware, csrfPlus_token. by rewrite Hs, H1, Hmask. }
  intros t1 req Hne Hm Ho Hk Hh Hlive.
  apply (stored_secret_verifies opts t1 req (stores wd1) key e (encode secret)); try done.
  - by apply H4.
  - intros He. by apply encode_empty in He.
  - rewrite Hmask, decode_encode. by rewrite H3.
Qed.

(** X16. The token cookie opens the door, with masking (the mask codec is
    modelled from the specification): over the memory store with [mask]
    on, [middleware] sets the token cookie to a masked token of the secret
    of the client, made with a fresh pad, and [verify] lets a later
    request of the same session through with that token, under the
    conditions of the statement without masking. *)
Theorem middleware_masked_token_accepted opts (t0 : Z) req0 wd :
  stateless opts = false -> store opts = Some memory_store -> mask opts = true ->
  exists key secret wd1,
    getOrCreateSecret opts t0 req0 wd = (Ok (Some (key, secret)), wd1) /\
    middleware opts t0 req0 wd
    = (Next, World (snd (makeMaskedToken secret (rng wd1)))
                   (res_cookie (cookieName opts) (fst (makeMaskedToken secret (rng wd1)))
                               (res wd1))
                   (stores wd1)) /\
    forall (t1 : Z) req,
      secret <> [] ->
      includes (allowedMethods opts) (method req) = false ->
      originCheck opts = false \/ origin_ok P req = true ->
      session_key opts req = Some key ->
      header req (headerName opts) = Some (fst (makeMaskedToken secret (rng wd1))) ->
      is_Some (fst (mem_get t1 key (stores wd1))) ->
      verify P opts t1 req (stores wd1) = (Next, stores wd1).
Proof.
  intros Hs Hst Hmask.
  destruct (secret_entry opts t0 req0 wd Hs Hst) as (key & secret & wd1 & e & H1 & H2 & H3 & H4).
  exists key, secret, wd1. split; [done|]. split.
  { unfold middleware, csrfPlus_token. rewrite Hs, H1, Hmask.
    by destruct (makeMaskedToken secret (rng wd1)). }
  intros t1 req Hne Hm Ho Hk Hh Hlive.
  apply (stored_secret_verifies opts t1 req (stores wd1) key e
           (fst (makeMaskedToken secret (rng wd1)))); try done.
  - by apply H4.
  - by apply masked_nonempty.
  - rewrite Hmask, H3. by apply unmask_masked.
Qed.

End MemoryEngine.

(* ---- runs of the memory store ---- *)
Lemma store_run_cons (t : Z) (op : store_op) (ops : list (Z * store_op)) (m : memory) :
  ops <> [] -> store_run ((t, op) :: ops) m = store_run ops (snd (store_step t op m)).
Proof. destruct ops; done. Qed.

Lemma store_run_last (ops : list (Z * store_op)) (t : Z) (op : store_op) (m : memory) :
  store_run (ops ++ [(t, op)]) m = store_step t op (run_state ops m).
Proof.
  revert m. induction ops as [|[t' op'] ops IH]; intros m; [done|].
  change (((t', op') :: ops) ++ [(t, op)]) with ((t', op') :: (ops ++ [(t, op)])).
  rewrite store_run_cons by (by destruct ops). by rewrite IH.
Qed.

Lemma run_state_app (a b : list (Z * store_op)) (m : memory) :
  run_state (a ++ b) m = run_state b (run_state a m).
Proof. apply List.fold_left_app. Qed.

Lemma timers_keep_others (now : Z) (ts : list timer) (mp : gmap string entry) (k : string) :
  (forall t, In t ts -> is_due now t = true -> target t <> k) ->
  List.fold_left (fun mp t => if is_due now t then delete (target t) mp else mp) ts mp !! k
  = mp !! k.
Proof.
  revert mp. induction ts as [|t ts IH]; intros mp H; [done|].
  cbn [List.fold_left]. rewrite IH by (intros t' Ht'; apply H; by right).
  destruct (is_due now t) eqn:E; [|done].
  apply lookup_delete_ne. apply H; [by left|done].
Qed.

(** What a step on another key keeps: the entry of [k], and a property
    [Q] of the timers of [k] that keeps them from being due when the event
    loop turns. *)
Lemma step_keeps_entry (Q : timer -> Prop) (t : Z) (op : store_op) (m : memory) (k : string) :
  op_key op <> Some k -> (op = OTimers -> forall tm, Q tm -> (t < due tm)%Z) ->
  (forall tm, In tm (timers m) -> target tm = k -> Q tm) ->
  map (snd (store_step t op m)) !! k = map m !! k /\
  (forall tm, In tm (timers (snd (store_step t op m))) -> target tm = k -> Q tm).
Proof.
  intros Hk Ht Htm. destruct op as [k'|k' v' ttl'|k'|]; cbn [store_step op_key] in *.
  - assert (k' <> k) as Hne by congruence.
    unfold mem_get. destruct (map m !! k') as [e|]; [|done].
    destruct (exp e) as [x|]; [|done].
    destruct (negb (x =? 0)%Z && (t >? x)%Z); [|done].
    cbn [snd map timers]. split; [by apply lookup_delete_ne|done].
  - assert (k' <> k) as Hne by congruence.
    cbn [snd]. unfold mem_set. cbn [map timers]. split; [by apply lookup_insert_ne|].
    destruct (ttl' =? 0)%Z; [done|].
    intros tm [Hin|[<-|[]]]%List.in_app_or Htg; [by apply Htm|done].
  - assert (k' <> k) as Hne by congruence.
    cbn [snd]. unfold mem_del. cbn [map timers]. split; [by apply lookup_delete_ne|done].
  - cbn [snd]. unfold run_timers. cbn [map timers]. split.
    + apply timers_keep_others. intros tm Hin Hdue Htg.
      specialize (Ht eq_refl tm (Htm tm Hin Htg)).
      unfold is_due in Hdue. lia.
    + intros tm [Hin _]%List.filter_In Htg. by apply Htm.
Qed.

Lemma run_keeps_entry (Q : timer -> Prop) (ops : list (Z * store_op)) (m : memory)
      (k : string) :
  Forall (fun top => op_key (snd top) <> Some k /\
                     (snd top = OTimers -> forall tm, Q tm -> (fst top < due tm)%Z)) ops ->
  (forall tm, In tm (timers m) -> target tm = k -> Q tm) ->
  map (run_state ops m) !! k = map m !! k.
Proof.
  revert m. induction ops as [|[t op] ops IH]; intros m Hops Htm; [done|].
  apply Forall_cons in Hops as [[H1 H2] Hops]. cbn [fst snd] in H1, H2.
  destruct (step_keeps_entry Q t op m k H1 H2 Htm) as [Hmap Htm'].
  unfold run_state. cbn [List.fold_left fst snd]. fold (run_state ops (snd (store_step t op m))).
  rewrite IH by done. done.
Qed.

(** X17. The time to live of the memory store, as far as it holds: after
    [set(k, v, ttlSec)] on a store with no timer pending for [k], and
    whatever is then done to other keys, [get(k)] returns [v] at every
    time up to the expiry, provided the event loop has not run at or
    after the time at which the timer of this [set] is due; and when
    [ttlSec] is 0, for which [set] makes no timer, at every time and
    whenever the event loop runs. *)
Theorem entry_survives_run (t0 t1 : Z) (k v : string) (ttlSec : Z)
        (between : list (Z * store_op)) (m : memory) :
  (forall tm, In tm (timers m) -> target tm <> k) ->
  Forall (fun top => op_key (snd top) <> Some k /\
                     (snd top = OTimers ->
                      ttlSec = 0%Z \/
                      (fst top < t0 + timeout_delay (ttlSec * 1000 + 100))%Z)) between ->
  (ttlSec = 0 \/ t1 <= t0 + ttlSec * 1000)%Z ->
  fst (store_run ((t0, OSet k v ttlSec) :: between ++ [(t1, OGet k)]) m) = Some v.
Proof.
  intros Hfresh Hops Hlive.
  rewrite store_run_cons by (by destruct between). rewrite store_run_last.
  cbn [store_step snd].
  assert (map (run_state between (mem_set t0 k v ttlSec m)) !! k
          = map (mem_set t0 k v ttlSec m) !! k) as Hkeep.
  { destruct (Z.eq_dec ttlSec 0%Z) as [Hz|Hnz].
    - apply (run_keeps_entry (fun _ => False)).
      + eapply Forall_impl; [exact Hops|]. intros top [H1 _]. split; [done|]. by intros _ tm [].
      + unfold mem_set. cbn [timers]. apply Z.eqb_eq in Hz. rewrite Hz.
        intros tm Hin Htg. by destruct (Hfresh tm Hin).
    - apply (run_keeps_entry
               (fun tm => (t0 + timeout_delay (ttlSec * 1000 + 100) <= due tm)%Z)).
      + eapply Forall_impl; [exact Hops|]. intros top [H1 H2]. split; [done|].
        intros Hop tm Htm. destruct (H2 Hop) as [Hz|Hlt]; [done|lia].
      + unfold mem_set. cbn [timers]. apply Z.eqb_neq in Hnz. rewrite Hnz.
        intros tm [Hin|[<-|[]]]%List.in_app_or Htg; [by destruct (Hfresh tm Hin)|].
        cbn [due]. lia. }
  unfold mem_set in Hkeep at 2. cbn [map] in Hkeep. rewrite lookup_insert_eq in Hkeep.
  unfold mem_get. rewrite Hkeep. cbn [exp val].
  destruct (ttlSec =? 0)%Z eqn:E; [done|].
  assert ((t1 >? t0 + ttlSec * 1000)%Z = false) as -> by lia.
  by rewrite andb_false_r.
Qed.

Lemma step_keeps_lapsed (t : Z) (op : store_op) (m : memory) (k : string) (e : entry) :
  (forall v' ttl', op <> OSet k v' ttl') ->
  map m !! k = None \/ map m !! k = Some e ->
  map (snd (store_step t op m)) !! k = None \/ map (snd (store_step t op m)) !! k = Some e.
Proof.
  intros Hop Hm. destruct op as [k'|k' v' ttl'|k'|]; cbn [store_step].
  - unfold mem_get. destruct (map m !! k') as [e'|] eqn:E'; [|done].
    destruct (exp e') as [x|]; [|done].
    destruct (negb (x =? 0)%Z && (t >? x)%Z); [|done].
    cbn [snd map]. destruct (decide (k' = k)) as [->|Hne].
    + left. apply lookup_delete_eq.
    + by rewrite lookup_delete_ne.
  - cbn [snd]. unfold mem_set. cbn [map].
    assert (k' <> k) as Hne by (intros ->; by destruct (Hop v' ttl')).
    by rewrite lookup_insert_ne.
  - cbn [snd]. unfold mem_del. cbn [map]. destruct (decide (k' = k)) as [->|Hne].
    + left. apply lookup_delete_eq.
    + by rewrite lookup_delete_ne.
  - cbn [snd]. destruct (map (run_timers t m) !! k) as [e'|] eqn:E'; [|by left].
    apply run_timers_only_removes in E'. destruct Hm as [Hm|Hm]; [congruence|].
    right. congruence.
Qed.

Lemma run_keeps_lapsed (ops : list (Z * store_op)) (m : memory) (k : string) (e : entry) :
  Forall (fun top => forall v' ttl', snd top <> OSet k v' ttl') ops ->
  map m !! k = None \/ map m !! k = Some e ->
  map (run_state ops m) !! k = None \/ map (run_state ops m) !! k = Some e.
Proof.
  revert m. induction ops as [|[t op] ops IH]; intros m Hops Hm; [done|].
  apply Forall_cons in Hops as [H1 Hops]. cbn [snd] in H1.
  unfold run_state. cbn [List.fold_left fst snd]. fold (run_state ops (snd (store_step t op m))).
  apply IH; [done|]. by apply step_keeps_lapsed.
Qed.

(** X18. No value outlives its expiry in the memory store: after
    [set(k, v, ttlSec)] with a time to live, whatever is done in between
    short of another [set] of [k] (reads, deletions, turns of the event
    loop, operations on other keys), [get(k)] after the expiry returns
    null. *)
Theorem lapsed_entry_never_returned (t0 t1 : Z) (k v : string) (ttlSec : Z)
        (between : list (Z * store_op)) (m : memory) :
  (ttlSec <> 0)%Z -> (t0 + ttlSec * 1000 <> 0)%Z ->
  Forall (fun top => forall v' ttl', snd top <> OSet k v' ttl') between ->
  (t0 + ttlSec * 1000 < t1)%Z ->
  fst (store_run ((t0, OSet k v ttlSec) :: between ++ [(t1, OGet k)]) m) = None.
Proof.
  intros Httl Hexp Hops Hlate.
  rewrite store_run_cons by (by destruct between). rewrite store_run_last.
  cbn [store_step snd].
  destruct (run_keeps_lapsed between (mem_set t0 k v ttlSec m) k
              (Entry v (Some (t0 + ttlSec * 1000)%Z)) Hops) as [Hk|Hk].
  { right. unfold mem_set. cbn [map]. rewrite lookup_insert_eq.
    apply Z.eqb_neq in Httl. by rewrite Httl. }
  - unfold mem_get. by rewrite Hk.
  - unfold mem_get. rewrite Hk. cbn [exp val].
    assert ((t1 >? t0 + ttlSec * 1000)%Z = true) as -> by lia.
    assert ((t0 + ttlSec * 1000 =? 0)%Z = false) as -> by lia. done.
Qed.

Lemma step_keeps_timer (t : Z) (op : store_op) (m : memory) (tm : timer) :
  (op = OTimers -> (t < due tm)%Z) ->
  In tm (timers m) -> In tm (timers (snd (store_step t op m))).
Proof.
  intros Ht Hin. destruct op as [k'|k' v' ttl'|k'|]; cbn [store_step].
  - unfold mem_get. destruct (map m !! k') as [e'|]; [|done].
    destruct (exp e') as [x|]; [|done].
    by destruct (negb (x =? 0)%Z && (t >? x)%Z).
  - cbn [snd]. unfold mem_set. cbn [timers].
    destruct (ttl' =? 0)%Z; [done|]. apply List.in_or_app. by left.
  - done.
  - cbn [snd]. unfold run_timers. cbn [timers]. apply List.filter_In. split; [done|].
    specialize (Ht eq_refl). unfold is_due. apply negb_true_iff. lia.
Qed.

Lemma run_keeps_timer (ops : list (Z * store_op)) (m : memory) (tm : timer) :
  Forall (fun top => snd top = OTimers -> (fst top < due tm)%Z) ops ->
  In tm (timers m) -> In tm (timers (run_state ops m)).
Proof.
  revert m. induction ops as [|[t op] ops IH]; intros m Hops Hin; [done|].
  apply Forall_cons in Hops as [H1 Hops]. cbn [fst snd] in H1.
  unfold run_state. cbn [List.fold_left fst snd]. fold (run_state ops (snd (store_step t op m))).
  apply IH; [done|]. by apply step_keeps_timer.
Qed.

(** X19. The timer of a [set] outlives the entry it was made for: after
    [set(k, v, ttlSec)] with a time to live, whatever is done before the
    timer runs (other [set]s of [k] too, with any time to live or none),
    the first turn of the event loop at or after the time at which the
    timer is due removes the entry of [k], and [get(k)] returns null. *)
Theorem timer_removes_any_entry (t0 t2 t3 : Z) (k v : string) (ttlSec : Z)
        (between : list (Z * store_op)) (m : memory) :
  (ttlSec <> 0)%Z ->
  Forall (fun top => snd top = OTimers ->
                     (fst top < t0 + timeout_delay (ttlSec * 1000 + 100))%Z) between ->
  (t0 + timeout_delay (ttlSec * 1000 + 100) <= t2)%Z ->
  fst (store_run ((t0, OSet k v ttlSec) :: between ++ [(t2, OTimers); (t3, OGet k)]) m) = None.
Proof.
  intros Httl Hops Hdue.
  rewrite store_run_cons by (by destruct between).
  change [(t2, OTimers); (t3, OGet k)] with ([(t2, OTimers)] ++ [(t3, OGet k)]).
  rewrite List.app_assoc, store_run_last, run_state_app.
  cbn [store_step snd].
  set (tm := Timer (t0 + timeout_delay (ttlSec * 1000 + 100))%Z k).
  set (m1 := run_state between (mem_set t0 k v ttlSec m)).
  assert (In tm (timers m1)) as Hin.
  { apply run_keeps_timer; [done|]. unfold mem_set. cbn [timers].
    apply Z.eqb_neq in Httl. rewrite Httl. apply List.in_or_app. right. by left. }
  assert (is_due t2 tm = true) as Ht by (unfold is_due, tm; cbn [due]; lia).
  pose proof (due_timer_removes t2 m1 tm Hin Ht) as Hgone. cbn [target tm] in Hgone.
  unfold run_state at 1. cbn [List.fold_left fst snd store_step].
  unfold mem_get. by rewrite Hgone.
Qed.

Lemma step_keeps_origin (t : Z) (op : store_op) (m : memory) (done : list (Z * store_op)) :
  (forall k e, map m !! k = Some e -> exists t' ttl', In (t', OSet k (val e) ttl') done) ->
  forall k e, map (snd (store_step t op m)) !! k = Some e ->
              exists t' ttl', In (t', OSet k (val e) ttl') (done ++ [(t, op)]).
Proof.
  intros Hinv k e. destruct op as [k'|k' v' ttl'|k'|]; cbn [store_step].
  - intros He. destruct (Hinv k e) as (t' & ttl0 & Hin).
    + revert He. unfold mem_get. destruct (map m !! k') as [e'|] eqn:E'; [|done].
      destruct (exp e') as [x|]; [|done].
      destruct (negb (x =? 0)%Z && (t >? x)%Z); [|done].
      cbn [snd map]. destruct (decide (k' = k)) as [->|Hne].
      * by rewrite lookup_delete_eq.
      * by rewrite lookup_delete_ne.
    + exists t', ttl0. apply List.in_or_app. by left.
  - cbn [snd]. unfold mem_set. cbn [map]. destruct (decide (k' = k)) as [->|Hne].
    + rewrite lookup_insert_eq. intros [= <-]. cbn [val].
      exists t, ttl'. apply List.in_or_app. right. by left.
    + rewrite lookup_insert_ne by done. intros He.
      destruct (Hinv k e He) as (t' & ttl0 & Hin).
      exists t', ttl0. apply List.in_or_app. by left.
  - cbn [snd]. unfold mem_del. cbn [map]. destruct (decide (k' = k)) as [->|Hne].
    + by rewrite lookup_delete_eq.
    + rewrite lookup_delete_ne by done. intros He.
      destruct (Hinv k e He) as (t' & ttl0 & Hin).
      exists t', ttl0. apply List.in_or_app. by left.
  - cbn [snd]. intros He%run_timers_only_removes.
    destruct (Hinv k e He) as (t' & ttl0 & Hin).
    exists t', ttl0. apply List.in_or_app. by left.
Qed.

Lemma run_keeps_origin (ops done : list (Z * store_op)) (m : memory) :
  (forall k e, map m !! k = Some e -> exists t' ttl', In (t', OSet k (val e) ttl') done) ->
  forall k e, map (run_state ops m) !! k = Some e ->
              exists t' ttl', In (t', OSet k (val e) ttl') (done ++ ops).
Proof.
  revert done m. induction ops as [|[t op] ops IH]; intros done m Hinv.
  - by rewrite List.app_nil_r.
  - unfold run_state. cbn [List.fold_left fst snd]. fold (run_state ops (snd (store_step t op m))).
    replace (done ++ (t, op) :: ops) with ((done ++ [(t, op)]) ++ ops)
      by (by rewrite <- List.app_assoc).
    apply IH. by apply step_keeps_origin.
Qed.

(** X20. The memory store returns only what was stored: if, after any run
    from the empty store, [get(k)] returns a value, then an earlier
    operation of the run was a [set] of that value under that very key. *)
Theorem get_returns_what_was_set (ops : list (Z * store_op)) (t : Z) (k v : string) :
  fst (store_run (ops ++ [(t, OGet k)]) createMemoryStore) = Some v ->
  exists t' ttlSec, In (t', OSet k v ttlSec) ops.
Proof.
  rewrite store_run_last. cbn [store_step]. intros Hget.
  destruct (mem_get_Some _ _ _ _ Hget) as (_ & e & He & <-).
  apply (run_keeps_origin ops [] createMemoryStore); [|done].
  intros k' e'. cbn [createMemoryStore map]. by rewrite lookup_empty.
Qed.

(* ---- the text codec ---- *)
Lemma replace_all_length (x y : ascii) (s : string) :
  String.length (replace_all x y s) = String.length s.
Proof. induction s as [|c s IH]; [done|]. cbn [replace_all String.length]. by rewrite IH. Qed.

Lemma base64_encode_body (buf : list byte) :
  exists body k,
    base64_encode buf = body +:+ pads k /\ string_forall (is_not "=") body = true /\
    String.length body = (4 * List.length buf + 2) / 3.
Proof.
  induction buf as [|a|a b|a b c l (body & k & IH & Hbody & Hlen)] using list_ind3.
  - by exists EmptyString, 0.
  - eexists _, 2. split; [reflexivity|]. split; [|reflexivity].
    cbn [chars List.map string_of_list_ascii string_forall]. unfold is_not.
    rewrite !b64char_not_pad by sextet_arith. done.
  - eexists _, 1. split; [reflexivity|]. split; [|reflexivity].
    cbn [chars List.map string_of_list_ascii string_forall]. unfold is_not.
    rewrite !b64char_not_pad by sextet_arith. done.
  - cbn [base64_encode]. rewrite IH, <- append_assoc. eexists _, k. split; [reflexivity|]. split.
    + rewrite string_forall_append, Hbody.
      cbn [chars List.map string_of_list_ascii string_forall]. unfold is_not.
      rewrite !b64char_not_pad by sextet_arith. done.
    + cbn [chars List.map string_of_list_ascii]. rewrite !append_String, append_Empty.
      cbn [String.length List.length]. rewrite Hlen.
      replace (4 * S (S (S (List.length l))) + 2) with ((4 * List.length l + 2) + 4 * 3) by lia.
      rewrite Nat.div_add by lia. lia.
Qed.

(** X21. The length of the text: [encode] makes of a Buffer of [n] bytes a
    text of the integer part of [(4 n + 2) / 3] characters, which is the
    length of the base64 text without its padding. *)
Theorem encode_length (buf : list byte) :
  String.length (encode buf) = (4 * List.length buf + 2) / 3.
Proof.
  unfold encode. destruct (base64_encode_body buf) as (body & k & -> & Hbody & Hlen).
  rewrite !replace_all_append, !replace_all_pads by done.
  rewrite strip_padding_body.
  - by rewrite !replace_all_length.
  - apply replace_all_keeps; [done|]. apply replace_all_keeps; done.
Qed.

(** X22. [decode] reads the standard form too: the base64 text of a Buffer
    with its [+], [/] and [=] decodes to that Buffer, as the URL-safe text
    that [encode] makes does. *)
Theorem decode_reads_standard_base64 (buf : list byte) :
  decode (VStr (base64_encode buf)) = Ok buf.
Proof.
  cbn [decode]. f_equal. unfold decode_string, base64_decode.
  rewrite sextets_pad_to_4. rewrite !sextets_replace_all by done.
  apply base64_roundtrip.
Qed.

(* ---- the redis adapter over the client of the tests ---- *)
Lemma adapter_run_cons {W} (s : store_obj W) (t : Z) (op : store_op)
      (ops : list (Z * store_op)) (w : W) :
  ops <> [] -> adapter_run s ((t, op) :: ops) w = adapter_run s ops (snd (adapter_step s t op w)).
Proof. destruct ops; done. Qed.

Lemma adapter_run_last {W} (s : store_obj W) (ops : list (Z * store_op)) (t : Z)
      (op : store_op) (w : W) :
  adapter_run s (ops ++ [(t, op)]) w = adapter_step s t op (adapter_state s ops w).
Proof.
  revert w. induction ops as [|[t' op'] ops IH]; intros w; [done|].
  change (((t', op') :: ops) ++ [(t, op)]) with ((t', op') :: (ops ++ [(t, op)])).
  rewrite adapter_run_cons by (by destruct ops). by rewrite IH.
Qed.

Lemma redis_step_other_key (t : Z) (op : store_op) (mockMap : gmap string entry) (k : string) :
  op_key op <> Some k ->
  snd (adapter_step (redisAdapter mock_client) t op mockMap) !! k = mockMap !! k.
Proof.
  intros Hk. destruct op as [k'|k' v' ttl'|k'|]; cbn [op_key] in Hk;
    cbn [adapter_step redisAdapter st_get st_set st_del]; [| | |done].
  - assert (k' <> k) as Hne by congruence.
    unfold redis_get. cbn [mock_client client_get]. unfold mock_get.
    destruct (mockMap !! k') as [e|]; [|done].
    destruct (exp e) as [x|]; [|done].
    destruct (negb (x =? 0)%Z && (t >? x)%Z); [|done].
    cbn [snd]. by apply lookup_delete_ne.
  - assert (k' <> k) as Hne by congruence.
    unfold redis_set. cbn [mock_client client_set].
    destruct (ttl' =? 0)%Z; cbn [mock_set snd]; by apply lookup_insert_ne.
  - assert (k' <> k) as Hne by congruence.
    unfold redis_del. cbn [mock_client client_del mock_del snd]. by apply lookup_delete_ne.
Qed.

Lemma redis_run_other_keys (ops : list (Z * store_op)) (mockMap : gmap string entry)
      (k : string) :
  Forall (fun top => op_key (snd top) <> Some k) ops ->
  adapter_state (redisAdapter mock_client) ops mockMap !! k = mockMap !! k.
Proof.
  revert mockMap. induction ops as [|[t op] ops IH]; intros mockMap Hops; [done|].
  apply Forall_cons in Hops as [H1 Hops]. cbn [snd] in H1.
  unfold adapter_state. cbn [List.fold_left fst snd].
  fold (adapter_state (redisAdapter mock_client) ops
          (snd (adapter_step (redisAdapter mock_client) t op mockMap))).
  rewrite IH by done. by apply redis_step_other_key.
Qed.

(** X23. The time to live through the Redis adapter, over the client of
    the tests: after [set(k, v, ttlSec)], whatever the server held before
    (an older entry of [k] with another expiry too) and whatever is then
    done to other keys, [get(k)] returns [v] at every time up to the
    expiry, and at every time when [ttlSec] is 0. Nothing that an earlier
    [set] has left behind removes the new entry. *)
Theorem redis_entry_survives (t0 t1 : Z) (k v : string) (ttlSec : Z)
        (between : list (Z * store_op)) (mockMap : gmap string entry) :
  Forall (fun top => op_key (snd top) <> Some k) between ->
  (ttlSec = 0 \/ t1 <= t0 + ttlSec * 1000)%Z ->
  fst (adapter_run (redisAdapter mock_client)
         ((t0, OSet k v ttlSec) :: between ++ [(t1, OGet k)]) mockMap)
  = Ok (Some v).
Proof.
  intros Hops Hlive.
  rewrite adapter_run_cons by (by destruct between). rewrite adapter_run_last.
  set (m1 := snd (adapter_step (redisAdapter mock_client) t0 (OSet k v ttlSec) mockMap)).
  pose proof (redis_run_other_keys between m1 k Hops) as Hkeep.
  cbn [adapter_step redisAdapter st_get]. unfold redis_get.
  cbn [mock_client client_get]. unfold mock_get. rewrite Hkeep.
  unfold m1. cbn [adapter_step redisAdapter st_set]. unfold redis_set.
  cbn [mock_client client_set].
  destruct (ttlSec =? 0)%Z eqn:E; cbn [mock_set snd]; rewrite lookup_insert_eq; cbn [exp val].
  - done.
  - assert ((t1 >? t0 + ttlSec * 1000)%Z = false) as -> by lia.
    by rewrite andb_false_r.
Qed.

(* ---- the further statements at concrete inputs ---- *)
Lemma minted_token_lifetime_witness :
  let key := VStr "test-stateless-key-xxx" in
  let now := 1700000000000%Z in
  let token :=
    "eyJpYXQiOjE3MDAwMDAwMDAwMDAsImV4cCI6MTY5OTk5OTk5OTAwMH0uV2lc3f93DyMfv7CdXTf3t_9pcjEhqg88ewSPzZXgiSY" in
  let opts := memory_options (short_lived_options key (-1000)) in
  let req := bare_request "POST" [("x-csrf-plus", token)] in
  csrfPlus_token opts now (bare_request "GET" []) first_world = (Ok token, first_world) /\
  verify no_platform opts (now - 1000) req createMemoryStore = (Next, createMemoryStore) /\
  verify no_platform opts (now - 999) req createMemoryStore
  = (Send 403 "CSRF token expired.", createMemoryStore).
Proof.
  cbv zeta.
  set (key := VStr "test-stateless-key-xxx").
  set (token := "eyJpYXQiOjE3MDAwMDAwMDAwMDAsImV4cCI6MTY5OTk5OTk5OTAwMH0uV2lc3f93DyMfv7CdXTf3t_9pcjEhqg88ewSPzZXgiSY").
  set (opts := memory_options (short_lived_options key (-1000))).
  set (req := bare_request "POST" [("x-csrf-plus", token)]).
  assert (forall later,
            exists tok,
              csrfPlus_token opts 1700000000000 (bare_request "GET" []) first_world
              = (Ok tok, first_world) /\
              (header req (headerName opts) = Some tok ->
               verify no_platform opts later req createMemoryStore =
               (if (negb (1700000000000 + statelessTTL opts =? 0)
                    && (later >? 1700000000000 + statelessTTL opts))%Z
                then Send 403 "CSRF token expired." else Next, createMemoryStore))) as H.
  { intros later.
    apply (minted_token_lifetime no_platform opts 1700000000000 later (bare_request "GET" [])
             first_world req createMemoryStore (utf8 "test-stateless-key-xxx")).
    - reflexivity.
    - reflexivity.
    - reflexivity.
    - reflexivity.
    - reflexivity.
    - apply separator_free_spec. vm_compute. reflexivity.
    - reflexivity.
    - left. reflexivity. }
  assert (csrfPlus_token opts 1700000000000 (bare_request "GET" []) first_world
          = (Ok token, first_world)) as Hmint by (vm_compute; reflexivity).
  split; [exact Hmint|]. split.
  - destruct (H (1700000000000 - 1000)%Z) as (tok & H1 & H2).
    rewrite Hmint in H1. injection H1 as <-. exact (H2 eq_refl).
  - destruct (H (1700000000000 - 999)%Z) as (tok & H1 & H2).
    rewrite Hmint in H1. injection H1 as <-. exact (H2 eq_refl).
Defined.

Lemma stateful_accepts_iff_witness :
  let opts := memory_options (stateful_options false) in
  let secret := [Byte.x00; Byte.xff; Byte.x2e] in
  let m := mem_set 0 "sid" (encode secret) 3600 createMemoryStore in
  let req := session_request "sid" "POST" [("x-csrf-plus", encode secret)] in
  fst (verify no_platform opts 1000 req m) = Next.
Proof.
  cbv zeta.
  apply (proj2 (stateful_accepts_iff no_platform
                  (memory_options (stateful_options false)) 1000
                  (session_request "sid" "POST"
                     [("x-csrf-plus", encode [Byte.x00; Byte.xff; Byte.x2e])])
                  (mem_set 0 "sid" (encode [Byte.x00; Byte.xff; Byte.x2e]) 3600 createMemoryStore)
                  eq_refl eq_refl)).
  split; [by left|]. split; [vm_compute; reflexivity|].
  exists "sid", (encode [Byte.x00; Byte.xff; Byte.x2e]).
  split; [reflexivity|]. split; [vm_compute; reflexivity|].
  split; [vm_compute; discriminate|]. vm_compute. reflexivity.
Defined.

Lemma non_string_token_refused_witness :
  let opts := memory_options (stateful_options true) in
  let req := {| method := "POST"; header := fun _ => None;
                body := Some (fun _ => VOther true); query := None;
                session_id := Some "sid"; cookies := None |} in
  fst (verify no_platform opts 0 req createMemoryStore) <> Next.
Proof.
  cbv zeta. apply non_string_token_refused.
  - reflexivity.
  - intros s. vm_compute. discriminate.
Defined.

Lemma missing_token_refused_witness :
  verify no_platform (memory_options (stateful_options true)) 0 (bare_request "POST" [])
         createMemoryStore
  = (Send 403 "CSRF token missing.", createMemoryStore).
Proof.
  apply missing_token_refused.
  - reflexivity.
  - left. reflexivity.
  - reflexivity.
  - reflexivity.
  - reflexivity.
Defined.

Lemma stateless_accepts_only_signed_witness :
  let key := VStr "test-stateless-key-xxx" in
  let token :=
    "eyJpYXQiOjE3MDAwMDAwMDAwMDAsImV4cCI6MTY5OTk5OTk5OTAwMH0uV2lc3f93DyMfv7CdXTf3t_9pcjEhqg88ewSPzZXgiSY" in
  let opts := memory_options (short_lived_options key (-1000)) in
  let req := bare_request "POST" [("x-csrf-plus", token)] in
  (originCheck opts = false \/ origin_ok no_platform req = true) /\
  exists t p kb,
    extract_token opts req = VStr t /\ key_bytes (statelessKey opts) = Some kb /\ p <> [] /\
    decode_string t = p ++ separator :: SHA256.hmac kb (utf8 (toString_utf8 p)) /\
    expired no_platform 1699999999000
            (try_catch (JSON_parse (toString_utf8 p)) (fun _ => JNull)) = false.
Proof.
  cbv zeta. apply (stateless_accepts_only_signed no_platform _ _ _ createMemoryStore).
  - reflexivity.
  - reflexivity.
  - vm_compute. reflexivity.
Defined.

Lemma stateless_verify_ignores_store_witness :
  let opts := memory_options (short_lived_options (VStr "k") 1000) in
  let req := bare_request "POST" [("x-csrf-plus", "AAAA")] in
  let w := mem_set 0 "sid" "AP8u" 3600 createMemoryStore in
  snd (verify no_platform opts 5 req w) = w /\
  fst (verify no_platform opts 5 req createMemoryStore) = fst (verify no_platform opts 5 req w).
Proof. cbv zeta. apply stateless_verify_ignores_store. reflexivity. Defined.

Lemma sid_cookie_only_for_new_client_witness :
  let opts := memory_options (stateful_options false) in
  let req := bare_request "GET" [] in
  res (snd (getOrCreateSecret opts 0 req first_world))
  = Response [("CSRF_PLUS_SID", "CzBVep_E6Q4zWH2ix-wRNg")] /\
  res (snd (getOrCreateSecret opts 0 (session_request "sid" "GET" []) first_world))
  = Response [].
Proof.
  cbv zeta. split.
  - rewrite (proj1 (sid_cookie_only_for_new_client (memory_options (stateful_options false)) 0
                      (bare_request "GET" []) first_world eq_refl)).
    vm_compute. reflexivity.
  - rewrite (proj1 (sid_cookie_only_for_new_client (memory_options (stateful_options false)) 0
                      (session_request "sid" "GET" []) first_world eq_refl)).
    reflexivity.
Defined.

Lemma getOrCreateSecret_stores_secret_witness :
  let opts := memory_options (stateful_options false) in
  exists key secret wd1 e,
    getOrCreateSecret opts 0 (session_request "sid" "GET" []) first_world
    = (Ok (Some (key, secret)), wd1) /\
    map (stores wd1) !! key = Some e /\ decode_string (val e) = secret.
Proof.
  cbv zeta. apply getOrCreateSecret_stores_secret; reflexivity.
Defined.

Lemma getOrCreateSecret_idempotent_witness :
  let opts := memory_options (stateful_options false) in
  let req := session_request "sid" "GET" [] in
  let secret := fst (randomBytes 32 sample_entropy) in
  let wd1 := snd (getOrCreateSecret opts 0 req first_world) in
  getOrCreateSecret opts 3600000 (session_request "sid" "POST" []) wd1
  = (Ok (Some ("sid", secret)), wd1).
Proof.
  cbv zeta.
  apply (getOrCreateSecret_idempotent (memory_options (stateful_options false)) 0 3600000
           (session_request "sid" "GET" []) (session_request "sid" "POST" []) first_world).
  - reflexivity.
  - reflexivity.
  - vm_compute. reflexivity.
  - vm_compute. discriminate.
  - reflexivity.
  - vm_compute. by eexists.
Defined.

Lemma middleware_token_accepted_witness :
  let opts := memory_options (stateful_options false) in
  exists key secret wd1,
    getOrCreateSecret opts 0 (bare_request "GET" []) first_world
    = (Ok (Some (key, secret)), wd1) /\
    middleware opts 0 (bare_request "GET" []) first_world
    = (Next, World (rng wd1) (res_cookie (cookieName opts) (encode secret) (res wd1))
                   (stores wd1)) /\
    forall (t1 : Z) req,
      secret <> [] ->
      includes (allowedMethods opts) (method req) = false ->
      originCheck opts = false \/ origin_ok no_platform req = true ->
      session_key opts req = Some key ->
      header req (headerName opts) = Some (encode secret) ->
      is_Some (fst (mem_get t1 key (stores wd1))) ->
      verify no_platform opts t1 req (stores wd1) = (Next, stores wd1).
Proof.
  cbv zeta. apply middleware_token_accepted; reflexivity.
Defined.

Lemma middleware_masked_token_accepted_witness :
  let opts := memory_options (stateful_options true) in
  exists key secret wd1,
    getOrCreateSecret opts 0 (bare_request "GET" []) first_world
    = (Ok (Some (key, secret)), wd1) /\
    middleware opts 0 (bare_request "GET" []) first_world
    = (Next, World (snd (makeMaskedToken secret (rng wd1)))
                   (res_cookie (cookieName opts) (fst (makeMaskedToken secret (rng wd1)))
                               (res wd1))
                   (stores wd1)) /\
    forall (t1 : Z) req,
      secret <> [] ->
      includes (allowedMethods opts) (method req) = false ->
      originCheck opts = false \/ origin_ok no_platform req = true ->
      session_key opts req = Some key ->
      header req (headerName opts) = Some (fst (makeMaskedToken secret (rng wd1))) ->
      is_Some (fst (mem_get t1 key (stores wd1))) ->
      verify no_platform opts t1 req (stores wd1) = (Next, stores wd1).
Proof.
  cbv zeta. apply middleware_masked_token_accepted; reflexivity.
Defined.

Lemma entry_survives_run_witness :
  fst (store_run ((0, OSet "a" "x" 1)
                    :: [(1, OSet "b" "y" 10); (500, OTimers); (900, OGet "b")]
                    ++ [(1000, OGet "a")])%Z createMemoryStore)
  = Some "x" /\
  fst (store_run ((0, OSet "a" "x" 0)
                    :: [(1, OSet "b" "y" 1); (1200, OTimers); (86400000, OTimers)]
                    ++ [(86400001, OGet "a")])%Z createMemoryStore)
  = Some "x".
Proof.
  split.
  - apply entry_survives_run.
    + intros tm [].
    + repeat (constructor;
              [split; [discriminate|intros; right; try discriminate; reflexivity]|]).
      constructor.
    + right. vm_compute. discriminate.
  - apply entry_survives_run.
    + intros tm [].
    + repeat (constructor; [split; [discriminate|intros; left; reflexivity]|]).
      constructor.
    + left. reflexivity.
Defined.

Lemma lapsed_entry_never_returned_witness :
  fst (store_run ((0, OSet "a" "x" 1)
                    :: [(500, OGet "a"); (700, OSet "b" "y" 0); (1200, OTimers)]
                    ++ [(1300, OGet "a")])%Z createMemoryStore)
  = None.
Proof.
  apply lapsed_entry_never_returned.
  - discriminate.
  - discriminate.
  - repeat (constructor; [intros; discriminate|]). constructor.
  - reflexivity.
Defined.

Lemma timer_removes_any_entry_witness :
  fst (store_run ((0, OSet "a" "v1" 1)
                    :: [(500, OSet "a" "v2" 3600)]
                    ++ [(1100, OTimers); (1200, OGet "a")])%Z createMemoryStore)
  = None.
Proof.
  apply timer_removes_any_entry.
  - discriminate.
  - repeat (constructor; [intros; try discriminate; reflexivity|]). constructor.
  - vm_compute. discriminate.
Defined.

Lemma get_returns_what_was_set_witness :
  exists t' ttlSec, In (t', OSet "a" "x" ttlSec) [(0%Z, OSet "b" "y" 0); (1%Z, OSet "a" "x" 60)].
Proof.
  apply (get_returns_what_was_set [(0%Z, OSet "b" "y" 0); (1%Z, OSet "a" "x" 60)] 2 "a" "x").
  vm_compute. reflexivity.
Defined.

Lemma redis_entry_survives_witness :
  fst (adapter_run (redisAdapter mock_client)
         ((1000, OSet "a" "new" 3600)
            :: [(2000, OSet "b" "y" 1); (4000, OGet "b"); (5000, OTimers)]
            ++ [(3601000, OGet "a")])%Z
         (<["a" := Entry "old" (Some 1100%Z)]> ∅))
  = Ok (Some "new").
Proof.
  apply redis_entry_survives.
  - repeat (constructor; [discriminate|]). constructor.
  - right. vm_compute. discriminate.
Defined.
